(** * Job tracking, dispatch, process sandbox and spec synthesis

    A shallow embedding of the asynchronous job layer of the test-automation
    platform:

    - [services/ai-agent/src/tasks/job_store.py]  (class [JobStore]),
    - [services/ai-agent/src/api/routes.py]       (background wrappers,
      [cancel_job]),
    - [services/ai-agent/src/tasks/celery_app.py] ([get_task_status]),
    - [backend/app/services/test_runner.py]       ([_steps_to_cypress],
      [_steps_to_playwright], [_run_process]).

    The first part of the file holds the definitions, translated function by
    function from the Python sources; the second part holds the lemmas and
    the theorems about them. *)

From stdpp Require Import gmap strings list fin_maps sorting.
From Stdlib Require Import ZArith DecimalString.

Open Scope string_scope.
Open Scope list_scope.

(* ===================================================================== *)
(** * Part I: definitions                                                 *)
(* ===================================================================== *)

(** ** Python values and string helpers *)

Module Py.

(** The line feed used by ["\n".join(lines)]. *)
Definition nl : string :=
  String (Ascii.Ascii false true false true false false false false)
    EmptyString.

(** [sep.join(lines)]. *)
Fixpoint join (sep : string) (lines : list string) : string :=
  match lines with
  | [] => ""
  | [l] => l
  | l :: rest => l +:+ sep +:+ join sep rest
  end.

(** [needle in hay] on strings. *)
Fixpoint contains (needle hay : string) : bool :=
  String.prefix needle hay ||
  match hay with
  | EmptyString => false
  | String _ hay' => contains needle hay'
  end.

(** Number of positions of [hay] at which [needle] starts. *)
Fixpoint occurrences (needle hay : string) : nat :=
  match hay with
  | EmptyString => 0
  | String _ hay' =>
      (if String.prefix needle hay then 1 else 0) + occurrences needle hay'
  end.

(** [c.lower()] on one ASCII character: ['A'..'Z'] move to ['a'..'z'],
    every other byte is kept. *)
Definition lower_ascii (c : Ascii.ascii) : Ascii.ascii :=
  let n := Ascii.nat_of_ascii c in
  if (65 <=? n)%nat && (n <=? 90)%nat then Ascii.ascii_of_nat (n + 32) else c.

(** [s.lower()] on ASCII text: every byte goes through [lower_ascii]. A
    string here is a sequence of bytes, and bytes from 128 on are kept, so
    that the cased characters outside ASCII are not lowered as Python
    lowers them; the function is [s.lower()] where [is_ascii] below holds. *)
Fixpoint lower (s : string) : string :=
  match s with
  | EmptyString => EmptyString
  | String c s' => String (lower_ascii c) (lower s')
  end.

(** [s.isascii()]: every byte is below 128. *)
Fixpoint is_ascii (s : string) : bool :=
  match s with
  | EmptyString => true
  | String c s' => (Ascii.nat_of_ascii c <? 128)%nat && is_ascii s'
  end.

(** [str(n)] for an integer. *)
Definition str_of_int (z : Z) : string := NilZero.string_of_int (Z.to_int z).

(** [l[:n]]: the first [n] items when [n >= 0], all but the last [-n]
    items when [n < 0]. *)
Definition slice_to {A} (l : list A) (n : Z) : list A :=
  if (0 <=? n)%Z then take (Z.to_nat n) l
  else take (length l - Z.to_nat (- n)) l.

(** An insertion-ordered [dict] with string keys: [d[k] = v] overwrites in
    place when [k] is present and appends at the end otherwise. *)
Fixpoint dict_set {V} (d : list (string * V)) (k : string) (v : V)
  : list (string * V) :=
  match d with
  | [] => [(k, v)]
  | (k', v') :: d' =>
      if decide (k' = k) then (k, v) :: d' else (k', v') :: dict_set d' k v
  end.

(** [d.get(k)]. *)
Fixpoint dict_get {V} (d : list (string * V)) (k : string) : option V :=
  match d with
  | [] => None
  | (k', v') :: d' => if decide (k' = k) then Some v' else dict_get d' k
  end.

(** [d.pop(k, None)] / [del d[k]], as far as the dictionary goes. *)
Fixpoint dict_del {V} (d : list (string * V)) (k : string)
  : list (string * V) :=
  match d with
  | [] => []
  | (k', v') :: d' =>
      if decide (k' = k) then d' else (k', v') :: dict_del d' k
  end.

(** [d.values()], in insertion order. *)
Definition dict_values {V} (d : list (string * V)) : list V := d.*2.

(** [d.keys()], in insertion order. *)
Definition dict_keys {V} (d : list (string * V)) : list string := d.*1.

End Py.

(** ** [api/schemas.py]: job status and job record *)

(** [class JobStatus(str, Enum)]. *)
Inductive JobStatus := PENDING | RUNNING | COMPLETED | FAILED.

#[global] Instance JobStatus_eq_dec : EqDecision JobStatus.
Proof. solve_decision. Defined.

(** The enum's [.value]. *)
Definition JobStatus_value (s : JobStatus) : string :=
  match s with
  | PENDING => "pending"
  | RUNNING => "running"
  | COMPLETED => "completed"
  | FAILED => "failed"
  end.

(** [JobStatus(text)]; [None] stands for the [ValueError] of an unknown
    value. *)
Definition JobStatus_of_value (v : string) : option JobStatus :=
  if decide (v = "pending") then Some PENDING
  else if decide (v = "running") then Some RUNNING
  else if decide (v = "completed") then Some COMPLETED
  else if decide (v = "failed") then Some FAILED
  else None.

(** [status in [JobStatus.COMPLETED, JobStatus.FAILED]]. *)
Definition is_terminal (s : JobStatus) : bool :=
  match s with
  | COMPLETED | FAILED => true
  | PENDING | RUNNING => false
  end.

(** A naive UTC [datetime], counted in microseconds. *)
Definition datetime := Z.

(** The [result] payload, a JSON object kept as its serialised text. *)
Definition Payload := string.

(** [class JobResult(BaseModel)]. *)
Record JobResult := mkJobResult {
  job_id : string;
  status : JobStatus;
  created_at : datetime;
  completed_at : option datetime;
  result : option Payload;
  error : option string
}.

#[global] Instance JobResult_eq_dec : EqDecision JobResult.
Proof. solve_decision. Defined.

(** ** [tasks/job_store.py] *)

(** The values of the flat dictionary that the backends hold, as Python has
    them after [json.loads]: [None], a string, an object, or any other
    value (a number, a boolean, a list) with its truth value. *)
Inductive JsonVal :=
  | JNull
  | JStr (text : string)
  | JObj (payload : Payload)
  | JOther (truthy : bool).

#[global] Instance JsonVal_eq_dec : EqDecision JsonVal.
Proof. solve_decision. Defined.

(** [if value:] on an entry: [None], the empty string and the empty object
    are false. *)
Definition json_truthy (value : JsonVal) : bool :=
  match value with
  | JNull => false
  | JStr text => negb (bool_decide (text = ""))
  | JObj payload => negb (bool_decide (payload = "{}"))
  | JOther truthy => truthy
  end.

(** The dictionary of a job, [dict[str, Any]]. *)
Abbreviation JobDict := (gmap string JsonVal).

Section job_dict.

(** [datetime.isoformat] and [datetime.fromisoformat] of Python's library;
    [None] stands for the [ValueError] of a text that is no ISO date. *)
Variable isoformat : datetime → string.
Variable fromisoformat : string → option datetime.

Definition _job_to_dict (job : JobResult) : JobDict :=
  <["job_id" := JStr (job_id job)]>
  (<["status" := JStr (JobStatus_value (status job))]>
  (<["created_at" := JStr (isoformat (created_at job))]>
  (<["completed_at" :=
       match completed_at job with
       | Some t => JStr (isoformat t)
       | None => JNull
       end]>
  (<["result" :=
       match result job with
       | Some payload => JObj payload
       | None => JNull
       end]>
  (<["error" :=
       match error job with
       | Some text => JStr text
       | None => JNull
       end]> ∅))))).

(** [_dict_to_job]; [None] stands for the exception that a dictionary of
    another shape raises: the [KeyError] of a missing [job_id], [status] or
    [created_at], the [ValueError] of [JobStatus(...)] or of
    [fromisoformat], the [TypeError] of [fromisoformat] on a value that is
    no string, and the validation error of [JobResult] for a field of the
    wrong type. The three optional fields are read with [data.get]: a
    missing key is [None], and [completed_at] is parsed only when its entry
    is true. *)
Definition _dict_to_job (data : JobDict) : option JobResult :=
  id ← match data !! "job_id" with
       | Some (JStr text) => Some text
       | _ => None
       end;
  st ← match data !! "status" with
       | Some (JStr text) => JobStatus_of_value text
       | _ => None
       end;
  created ← match data !! "created_at" with
            | Some (JStr text) => fromisoformat text
            | _ => None
            end;
  completed ← match data !! "completed_at" with
              | Some value =>
                  if json_truthy value then
                    match value with
                    | JStr text => Some <$> fromisoformat text
                    | _ => None
                    end
                  else Some None
              | None => Some None
              end;
  res ← match data !! "result" with
        | Some (JObj payload) => Some (Some payload)
        | Some JNull | None => Some None
        | Some _ => None
        end;
  err ← match data !! "error" with
        | Some (JStr text) => Some (Some text)
        | Some JNull | None => Some None
        | Some _ => None
        end;
  Some {| job_id := id;
          status := st;
          created_at := created;
          completed_at := completed;
          result := res;
          error := err |}.

End job_dict.

(** Outcome of one call on the Redis client: it answers, or it raises (the
    store catches the exception and logs it). *)
Inductive redis_call := RedisOk | RedisError.

(** The calls made by one [update_job]: the read of [get_job] and the write
    of [_save_job]. *)
Record redis_calls := mkCalls { on_get : redis_call; on_save : redis_call }.

(** [class JobStore]. [_memory_store] is the insertion-ordered dictionary;
    [_redis_client] is [None] when Redis is not used or could not be reached
    at start-up, and otherwise gives the content of the Redis database, keyed
    by the full Redis key. Both backends hold the dictionary of
    [_job_to_dict], read back through [_dict_to_job], which gives the record
    that was written (lemma [dict_to_job_to_dict]); the stored value is kept
    as the [JobResult] it denotes. *)
Record JobStore := mkJobStore {
  _memory_store : list (string * JobResult);
  _redis_client : option (gmap string JobResult)
}.

Definition _job_key (job_id : string) : string := "ai-agent:job:" +:+ job_id.

Definition _save_job (self : JobStore) (job : JobResult) (rc : redis_call)
  : JobStore :=
  {| _memory_store := Py.dict_set (_memory_store self) (job_id job) job;
     _redis_client :=
       match _redis_client self with
       | Some db =>
           match rc with
           | RedisOk => Some (<[_job_key (job_id job) := job]> db)
           | RedisError => Some db
           end
       | None => None
       end |}.

Definition create_job (self : JobStore) (job_id : string) (now : datetime)
    (rc : redis_call) : JobStore * JobResult :=
  let job := {| job_id := job_id; status := PENDING; created_at := now;
                completed_at := None; result := None; error := None |} in
  (_save_job self job rc, job).

Definition get_job (self : JobStore) (job_id : string) (rc : redis_call)
  : option JobResult :=
  let from_memory := Py.dict_get (_memory_store self) job_id in
  match _redis_client self with
  | Some db =>
      match rc with
      | RedisOk =>
          match db !! _job_key job_id with
          | Some job => Some job
          | None => from_memory
          end
      | RedisError => from_memory
      end
  | None => from_memory
  end.

(** The three field assignments of [update_job], applied to the record that
    [get_job] returned. *)
Definition apply_update (job : JobResult) (new_status : option JobStatus)
    (new_result : option Payload) (new_error : option string)
    (now : datetime) : JobResult :=
  let job1 :=
    match new_status with
    | Some st =>
        {| job_id := job_id job; status := st; created_at := created_at job;
           completed_at :=
             if is_terminal st then Some now else completed_at job;
           result := result job; error := error job |}
    | None => job
    end in
  let job2 :=
    match new_result with
    | Some r =>
        {| job_id := job_id job1; status := status job1;
           created_at := created_at job1; completed_at := completed_at job1;
           result := Some r; error := error job1 |}
    | None => job1
    end in
  match new_error with
  | Some e =>
      {| job_id := job_id job2; status := status job2;
         created_at := created_at job2; completed_at := completed_at job2;
         result := result job2; error := Some e |}
  | None => job2
  end.

Definition update_job (self : JobStore) (job_id : string)
    (new_status : option JobStatus) (new_result : option Payload)
    (new_error : option string) (now : datetime) (rc : redis_calls)
  : JobStore * option JobResult :=
  match get_job self job_id (on_get rc) with
  | None => (self, None)
  | Some job =>
      let job' := apply_update job new_status new_result new_error now in
      (_save_job self job' (on_save rc), Some job')
  end.

Definition mark_running (self : JobStore) (job_id : string) (now : datetime)
    (rc : redis_calls) : JobStore * option JobResult :=
  update_job self job_id (Some RUNNING) None None now rc.

Definition mark_completed (self : JobStore) (job_id : string)
    (res : Payload) (now : datetime) (rc : redis_calls)
  : JobStore * option JobResult :=
  update_job self job_id (Some COMPLETED) (Some res) None now rc.

Definition mark_failed (self : JobStore) (job_id : string) (err : string)
    (now : datetime) (rc : redis_calls) : JobStore * option JobResult :=
  update_job self job_id (Some FAILED) None (Some err) now rc.

Definition delete_job (self : JobStore) (job_id : string) (rc : redis_call)
  : JobStore * bool :=
  let local :=
    match Py.dict_get (_memory_store self) job_id with
    | Some _ =>
        ({| _memory_store := Py.dict_del (_memory_store self) job_id;
            _redis_client := _redis_client self |}, true)
    | None => (self, false)
    end in
  match _redis_client self, rc with
  | Some db, RedisOk =>
      match db !! _job_key job_id with
      | Some _ =>
          ({| _memory_store := Py.dict_del (_memory_store self) job_id;
              _redis_client := Some (delete (_job_key job_id) db) |}, true)
      | None => local
      end
  | _, _ => local
  end.

(** [status is None or job.status == status]. *)
Definition status_matches (filter : option JobStatus) (job : JobResult)
  : bool :=
  match filter with
  | None => true
  | Some st => bool_decide (status job = st)
  end.

(** [len(jobs) >= limit]. *)
Definition limit_reached (jobs : list JobResult) (limit : Z) : bool :=
  (limit <=? Z.of_nat (length jobs))%Z.

(** The [for key in keys] loop over one batch of scanned keys. A key whose
    entry has expired since the scan reads as [None] and is skipped; the
    loop breaks right after the append that reaches the limit. *)
Fixpoint scan_batch (db : gmap string JobResult) (filter : option JobStatus)
    (limit : Z) (keys : list string) (jobs : list JobResult)
  : list JobResult :=
  match keys with
  | [] => jobs
  | key :: keys' =>
      match db !! key with
      | Some job =>
          if status_matches filter job then
            let jobs' := jobs ++ [job] in
            if limit_reached jobs' limit then jobs'
            else scan_batch db filter limit keys' jobs'
          else scan_batch db filter limit keys' jobs
      | None => scan_batch db filter limit keys' jobs
      end
  end.

(** The [while True] loop over the cursor. [batches] lists the key batches
    the successive [scan] calls return, the last one coming with cursor 0;
    a Redis exception during the loop leaves [jobs] as collected so far,
    which is the behaviour on the batches cut at that point (the empty list
    when the first [scan] raises). *)
Fixpoint scan_loop (db : gmap string JobResult) (filter : option JobStatus)
    (limit : Z) (batches : list (list string)) (jobs : list JobResult)
  : list JobResult :=
  match batches with
  | [] => jobs
  | keys :: rest =>
      let jobs' := scan_batch db filter limit keys jobs in
      if limit_reached jobs' limit then jobs'
      else scan_loop db filter limit rest jobs'
  end.

(** [any(j.job_id == job.job_id for j in jobs)]. *)
Definition id_listed (jobs : list JobResult) (job : JobResult) : bool :=
  existsb (λ j, bool_decide (job_id j = job_id job)) jobs.

(** The [for job_data in self._memory_store.values()] loop. *)
Fixpoint memory_loop (filter : option JobStatus) (limit : Z)
    (values : list JobResult) (jobs : list JobResult) : list JobResult :=
  match values with
  | [] => jobs
  | job :: rest =>
      if status_matches filter job then
        if id_listed jobs job then memory_loop filter limit rest jobs
        else
          let jobs' := jobs ++ [job] in
          if limit_reached jobs' limit then jobs'
          else memory_loop filter limit rest jobs'
      else memory_loop filter limit rest jobs
  end.

(** Insertion of [job] into a list sorted by [created_at], newest first,
    ahead of the first record that is not strictly newer. *)
Fixpoint insert_desc (job : JobResult) (sorted : list JobResult)
  : list JobResult :=
  match sorted with
  | [] => [job]
  | j :: rest =>
      if (created_at job <? created_at j)%Z then j :: insert_desc job rest
      else job :: j :: rest
  end.

(** [jobs.sort(key=lambda j: j.created_at, reverse=True)]: a stable sort,
    records with equal keys keep their order. *)
Fixpoint sort_created_desc (jobs : list JobResult) : list JobResult :=
  match jobs with
  | [] => []
  | job :: rest => insert_desc job (sort_created_desc rest)
  end.

(** The first half of [list_jobs]: the records that the Redis scan
    collects, none when there is no client. *)
Definition redis_jobs (self : JobStore) (batches : list (list string))
    (filter : option JobStatus) (limit : Z) : list JobResult :=
  match _redis_client self with
  | Some db => scan_loop db filter limit batches []
  | None => []
  end.

Definition list_jobs (self : JobStore) (batches : list (list string))
    (filter : option JobStatus) (limit : Z) : list JobResult :=
  let jobs0 := redis_jobs self batches filter limit in
  let jobs1 :=
    memory_loop filter limit (Py.dict_values (_memory_store self)) jobs0 in
  Py.slice_to (sort_created_desc jobs1) limit.

(** [JobStore(use_redis=False)], or a store whose Redis connection failed at
    start-up. *)
Definition memory_only : JobStore :=
  {| _memory_store := []; _redis_client := None |}.

(** A store freshly connected to an empty Redis database. *)
Definition with_redis : JobStore :=
  {| _memory_store := []; _redis_client := Some ∅ |}.

(** ** [api/routes.py]: background wrappers and cancellation *)

(** How the awaited unit of work of a background task ends: it returns its
    payload ([result.model_dump()]), it raises an exception that derives
    from [Exception], or it raises one that derives from [BaseException]
    only ([asyncio.CancelledError], [KeyboardInterrupt], [SystemExit]). *)
Inductive WorkOutcome :=
  | Returns (payload : Payload)
  | RaisesException (message : string)
  | RaisesBaseException (name : string).

(** The shape shared by [run_analysis_job], [run_generation_job],
    [run_requirements_parse_job] and [run_scenario_build_job]:
    [mark_running], then the work inside [try], [mark_completed] on return
    and [mark_failed(job_id, str(e))] under [except Exception as e]. The
    second component is the exception that leaves the wrapper, if any.
    [t_run] and [t_end] are the clock readings of the two updates. *)
Definition run_background_job (store : JobStore) (job_id : string)
    (work : WorkOutcome) (t_run t_end : datetime)
    (rc_run rc_end : redis_calls) : JobStore * option string :=
  let store1 := (mark_running store job_id t_run rc_run).1 in
  match work with
  | Returns payload =>
      ((mark_completed store1 job_id payload t_end rc_end).1, None)
  | RaisesException message =>
      ((mark_failed store1 job_id message t_end rc_end).1, None)
  | RaisesBaseException name => (store1, Some name)
  end.

Definition run_analysis_job := run_background_job.

Definition run_scenario_build_job := run_background_job.

(** What the [DELETE /jobs/{job_id}] handler gives back: the JSON message,
    or an [HTTPException] with its status code. *)
Inductive CancelResponse :=
  | Message (text : string)
  | HTTPException (status_code : Z).

Definition HTTP_404_NOT_FOUND : Z := 404.
Definition HTTP_400_BAD_REQUEST : Z := 400.

(** [cancel_job]. The revoke sent to Celery is best effort, its exceptions
    are swallowed and it does not touch the job store. [rc_get] is the read
    of the handler, [rc_mark] the calls of its [mark_failed]. *)
Definition cancel_job (store : JobStore) (job_id : string) (now : datetime)
    (rc_get : redis_call) (rc_mark : redis_calls)
  : JobStore * CancelResponse :=
  match get_job store job_id rc_get with
  | None => (store, HTTPException HTTP_404_NOT_FOUND)
  | Some job =>
      if is_terminal (status job) then
        (store, HTTPException HTTP_400_BAD_REQUEST)
      else
        ((mark_failed store job_id "Job cancelled by user" now rc_mark).1,
         Message ("Job " +:+ job_id +:+ " cancelled"))
  end.

(** ** [tasks/celery_app.py]: status of a queued task *)

Module CeleryApp.

(** What [get_task_status] reads from Celery's [AsyncResult]: the native
    state, the stored result (or exception) as text with [None] for
    Python's [None], and the answers of [ready()] and [failed()]. *)
Record AsyncResult := mkAsyncResult {
  ar_status : string;
  ar_result : option string;
  ar_ready : bool;
  ar_failed : bool
}.

(** The returned dictionary. *)
Record TaskStatus := mkTaskStatus {
  task_id : string;
  status : string;
  result : option string;
  error : option string
}.

Definition status_map : gmap string string :=
  <["PENDING" := "pending"]>
  (<["STARTED" := "running"]>
  (<["SUCCESS" := "completed"]>
  (<["FAILURE" := "failed"]>
  (<["REVOKED" := "failed"]> ∅)))).

(** [str(value)]. *)
Definition str (value : option string) : string :=
  match value with
  | Some text => text
  | None => "None"
  end.

Definition get_task_status (task_id : string) (res : AsyncResult)
  : TaskStatus :=
  {| task_id := task_id;
     status :=
       default (Py.lower (ar_status res)) (status_map !! ar_status res);
     result := if ar_ready res then ar_result res else None;
     error := if ar_failed res then Some (str (ar_result res)) else None |}.

End CeleryApp.

(** ** [backend/app/services/test_runner.py] *)

Module TestRunner.

(** The values a step dictionary holds. *)
Inductive PyVal :=
  | PyNone
  | PyStr (s : string)
  | PyInt (z : Z).

#[global] Instance PyVal_eq_dec : EqDecision PyVal.
Proof. solve_decision. Defined.

(** A step, [Dict[str, Any]]. *)
Abbreviation Step := (gmap string PyVal).

(** [step.get(key, fallback)]. *)
Definition get (step : Step) (key : string) (fallback : PyVal) : PyVal :=
  default fallback (step !! key).

(** The text an f-string puts for [{v}]. *)
Definition fmt (v : PyVal) : string :=
  match v with
  | PyNone => "None"
  | PyStr s => s
  | PyInt z => Py.str_of_int z
  end.

(** [v == "text"]. *)
Definition eq_str (v : PyVal) (text : string) : bool :=
  bool_decide (v = PyStr text).

(** The body of the [for step in steps] loop of [_steps_to_cypress]: the
    lines it appends. *)
Definition cypress_step (step : Step) (base_url : string) : list string :=
  let step_type := get step "type" (PyStr "") in
  let selector := get step "selector" (PyStr "") in
  let value := get step "value" (PyStr "") in
  if eq_str step_type "navigate" then
    let url := get step "url" (PyStr base_url) in
    ["    cy.visit('" +:+ fmt url +:+ "');"]
  else if eq_str step_type "click" then
    ["    cy.get('" +:+ fmt selector +:+ "').click();"]
  else if eq_str step_type "type" then
    ["    cy.get('" +:+ fmt selector +:+ "').type('" +:+ fmt value +:+ "');"]
  else if eq_str step_type "verify" then
    ["    cy.get('" +:+ fmt selector +:+ "').should('exist');"]
  else if eq_str step_type "wait" then
    let wait_time := get step "duration" (PyInt 1000) in
    ["    cy.wait(" +:+ fmt wait_time +:+ ");"]
  else [].

(** The lines of the Cypress spec before the final join. *)
Definition cypress_lines (steps : list Step) (base_url : string)
  : list string :=
  foldl (λ lines step, lines ++ cypress_step step base_url)
    ["describe('Test', () => {";
     "  it('runs the test steps', () => {"]
    steps
  ++ ["  });"; "});"].

Definition _steps_to_cypress (steps : list Step) (base_url : string)
  : string :=
  Py.join Py.nl (cypress_lines steps base_url).

(** The body of the loop of [_steps_to_playwright]. *)
Definition playwright_step (step : Step) (base_url : string)
  : list string :=
  let step_type := get step "type" (PyStr "") in
  let selector := get step "selector" (PyStr "") in
  let value := get step "value" (PyStr "") in
  if eq_str step_type "navigate" then
    let url := get step "url" (PyStr base_url) in
    ["  await page.goto('" +:+ fmt url +:+ "');"]
  else if eq_str step_type "click" then
    ["  await page.click('" +:+ fmt selector +:+ "');"]
  else if eq_str step_type "type" then
    ["  await page.fill('" +:+ fmt selector +:+ "', '" +:+ fmt value
       +:+ "');"]
  else if eq_str step_type "verify" then
    ["  await expect(page.locator('" +:+ fmt selector
       +:+ "')).toBeVisible();"]
  else if eq_str step_type "wait" then
    let wait_time := get step "duration" (PyInt 1000) in
    ["  await page.waitForTimeout(" +:+ fmt wait_time +:+ ");"]
  else [].

Definition playwright_lines (steps : list Step) (base_url : string)
  : list string :=
  foldl (λ lines step, lines ++ playwright_step step base_url)
    ["const { test, expect } = require('@playwright/test');";
     "";
     "test('runs the test steps', async ({ page }) => {"]
    steps
  ++ ["});"].

Definition _steps_to_playwright (steps : list Step) (base_url : string)
  : string :=
  Py.join Py.nl (playwright_lines steps base_url).

(** [class TestFramework(str, Enum)]. *)
Inductive TestFramework := CYPRESS | PLAYWRIGHT.

(** The synthesizer, by target flavor. *)
Definition synthesize (steps : list Step) (base_url : string)
    (flavor : TestFramework) : string :=
  match flavor with
  | CYPRESS => _steps_to_cypress steps base_url
  | PLAYWRIGHT => _steps_to_playwright steps base_url
  end.

(** The statements emitted for one step. *)
Definition emitted (step : Step) (base_url : string)
    (flavor : TestFramework) : list string :=
  match flavor with
  | CYPRESS => cypress_step step base_url
  | PLAYWRIGHT => playwright_step step base_url
  end.

(** How the subprocess of [_run_process] behaves: [communicate()] finishes
    within the timeout with a return code and the decoded output;
    [asyncio.wait_for] raises [TimeoutError], and then [process.kill()]
    either goes through ([kill_error] is [None]) or raises because the
    process is gone by then ([kill_error] is the text [str(e)] of that
    exception, empty for [ProcessLookupError]); the launch raises
    [FileNotFoundError]; or some other exception is raised, at the launch
    or while waiting. These are the runs in which [_run_process] returns;
    the cancellation of the calling task, which neither handler catches,
    ends the call without a result and is not among them. *)
Inductive ProcessBehaviour :=
  | Exits (returncode : Z) (out err : string)
  | TimesOut (kill_error : option string)
  | FileNotFound
  | OtherException (launched : bool) (message : string).

(** The calls [_run_process] makes on the operating system, in order. *)
Inductive SysCall :=
  | CreateSubprocess (cmd : list string) (cwd : string)
  | WaitForCommunicate (timeout : Z)
  | Kill.

(** The result dictionary. *)
Record TestResult := mkTestResult {
  success : bool;
  stdout : string;
  stderr : string;
  exit_code : Z;
  error : option string
}.

Definition _run_process (cmd : list string) (cwd : string) (timeout : Z)
    (proc : ProcessBehaviour) : TestResult * list SysCall :=
  match proc with
  | Exits returncode out err =>
      ({| success := bool_decide (returncode = 0%Z);
          stdout := out;
          stderr := err;
          exit_code := returncode;
          error := if bool_decide (returncode = 0%Z) then None
                   else Some "Test failed" |},
       [CreateSubprocess cmd cwd; WaitForCommunicate timeout])
  | TimesOut None =>
      ({| success := false;
          error := Some "Test timed out";
          stdout := "";
          stderr := "";
          exit_code := (-1)%Z |},
       [CreateSubprocess cmd cwd; WaitForCommunicate timeout; Kill])
  | TimesOut (Some message) =>
      ({| success := false;
          error := Some message;
          stdout := "";
          stderr := "";
          exit_code := (-1)%Z |},
       [CreateSubprocess cmd cwd; WaitForCommunicate timeout; Kill])
  | FileNotFound =>
      ({| success := false;
          error := Some "npx not found. Make sure Node.js is installed.";
          stdout := "";
          stderr := "";
          exit_code := (-1)%Z |},
       [CreateSubprocess cmd cwd])
  | OtherException launched message =>
      ({| success := false;
          error := Some message;
          stdout := "";
          stderr := "";
          exit_code := (-1)%Z |},
       CreateSubprocess cmd cwd ::
       if launched then [WaitForCommunicate timeout] else [])
  end.

End TestRunner.

(** ** Well-formed stores *)

(** Every entry of the dictionary sits under the id of its record, and no
    key occurs twice. *)
Definition memory_wf (d : list (string * JobResult)) : Prop :=
  NoDup d.*1 ∧ Forall (λ kv, kv.1 = job_id kv.2) d.

(** Every entry of the Redis database sits under the key of its record. *)
Definition redis_wf (db : gmap string JobResult) : Prop :=
  map_Forall (λ key job, key = _job_key (job_id job)) db.

Definition store_wf (store : JobStore) : Prop :=
  memory_wf (_memory_store store) ∧
  match _redis_client store with
  | Some db => redis_wf db
  | None => True
  end.

#[global] Instance memory_wf_dec d : Decision (memory_wf d).
Proof. unfold memory_wf. apply _. Defined.

#[global] Instance redis_wf_dec db : Decision (redis_wf db).
Proof. unfold redis_wf. apply _. Defined.

#[global] Instance store_wf_dec store : Decision (store_wf store).
Proof. unfold store_wf. destruct (_redis_client store); apply _. Defined.

(** ** Sequences of store operations *)

(** One call on the store, with the clock reading and the Redis outcomes it
    meets. *)
Inductive StoreOp :=
  | Create (job_id : string) (now : datetime) (rc : redis_call)
  | MarkRunning (job_id : string) (now : datetime) (rc : redis_calls)
  | MarkCompleted (job_id : string) (res : Payload) (now : datetime)
      (rc : redis_calls)
  | MarkFailed (job_id : string) (err : string) (now : datetime)
      (rc : redis_calls).

Definition apply_op (store : JobStore) (op : StoreOp) : JobStore :=
  match op with
  | Create id now rc => (create_job store id now rc).1
  | MarkRunning id now rc => (mark_running store id now rc).1
  | MarkCompleted id res now rc => (mark_completed store id res now rc).1
  | MarkFailed id err now rc => (mark_failed store id err now rc).1
  end.

Definition run_ops (store : JobStore) (ops : list StoreOp) : JobStore :=
  foldl apply_op store ops.

(** The update of [job_id] to [target] does not change the status of a record
    that is already terminal: the record it reads is absent, not terminal, or
    already has the status [target]. *)
Definition spares_terminal (store : JobStore) (job_id : string)
    (rc : redis_calls) (target : JobStatus) : bool :=
  match get_job store job_id (on_get rc) with
  | Some job =>
      negb (is_terminal (status job)) || bool_decide (status job = target)
  | None => true
  end.

Definition op_spares_terminal (store : JobStore) (op : StoreOp) : bool :=
  match op with
  | Create _ _ _ => true
  | MarkRunning id _ rc => spares_terminal store id rc RUNNING
  | MarkCompleted id _ _ rc => spares_terminal store id rc COMPLETED
  | MarkFailed id _ _ rc => spares_terminal store id rc FAILED
  end.

(** No operation of the sequence changes the status of a terminal record. *)
Fixpoint ops_spare_terminal (store : JobStore) (ops : list StoreOp) : bool :=
  match ops with
  | [] => true
  | op :: rest =>
      op_spares_terminal store op && ops_spare_terminal (apply_op store op) rest
  end.

(** [job] is held by one of the two backends. *)
Definition stored (store : JobStore) (job : JobResult) : Prop :=
  (∃ key, (key, job) ∈ _memory_store store) ∨
  (∃ db key, _redis_client store = Some db ∧ db !! key = Some job).

(** [result] is set only on a completed record, [error] only on a failed
    one, and never both. *)
Definition record_inv (job : JobResult) : Prop :=
  (is_Some (result job) → status job = COMPLETED) ∧
  (is_Some (error job) → status job = FAILED) ∧
  ¬ (is_Some (result job) ∧ is_Some (error job)).

(** ** Scenarios *)

(** Every Redis call of an update answers. *)
Definition redis_up : redis_calls := mkCalls RedisOk RedisOk.

(** The read answers, the write raises. *)
Definition redis_write_fails : redis_calls := mkCalls RedisOk RedisError.

(** A job created at 100, started at 110 and completed at 200 with the
    payload [{}], in a store without Redis. *)
Definition completed_store : JobStore :=
  run_ops memory_only
    [Create "job-1" 100%Z RedisOk;
     MarkRunning "job-1" 110%Z redis_up;
     MarkCompleted "job-1" "{}" 200%Z redis_up].

Definition completed_record : JobResult :=
  {| job_id := "job-1"; status := COMPLETED; created_at := 100%Z;
     completed_at := Some 200%Z; result := Some "{}"; error := None |}.

(** What [mark_failed("job-1", "boom")] at 300 makes of that record. *)
Definition overwritten_record : JobResult :=
  {| job_id := "job-1"; status := FAILED; created_at := 100%Z;
     completed_at := Some 300%Z; result := Some "{}"; error := Some "boom" |}.

(** A job created at 100 and not yet started, in a store without Redis. *)
Definition pending_store : JobStore :=
  run_ops memory_only [Create "job-1" 100%Z RedisOk].

(** A job created at 100 and started at 110, mirrored to Redis. *)
Definition running_redis_store : JobStore :=
  run_ops with_redis
    [Create "job-1" 100%Z RedisOk; MarkRunning "job-1" 110%Z redis_up].

(** The calls of the last update a wrapper makes: those of the terminal
    update, or those of [mark_running] when the work raises past the
    handler. *)
Definition last_calls (work : WorkOutcome) (rc_run rc_end : redis_calls)
  : redis_calls :=
  match work with
  | Returns _ | RaisesException _ => rc_end
  | RaisesBaseException _ => rc_run
  end.

(** How a background wrapper leaves the job [job_id] it runs. When the work
    returned, no exception leaves the wrapper and the record of the local
    map is completed with the payload; when the work raised an [Exception],
    no exception leaves the wrapper and the record is failed with the
    message; when the work raised past [except Exception], that exception
    leaves the wrapper and the record is running. [get_job] gives the
    record of the local map as soon as the last write reached Redis or there
    is no Redis. *)
Definition wrapper_outcome
    (wrapper : JobStore → string → WorkOutcome → datetime → datetime →
               redis_calls → redis_calls → JobStore * option string)
    (store : JobStore) (job_id : string) (work : WorkOutcome)
    (t_run t_end : datetime) (rc_run rc_end : redis_calls) : Prop :=
  let out := wrapper store job_id work t_run t_end rc_run rc_end in
  ∃ job,
    Py.dict_get (_memory_store out.1) job_id = Some job ∧
    match work with
    | Returns payload =>
        out.2 = None ∧ status job = COMPLETED ∧ result job = Some payload ∧
        completed_at job = Some t_end
    | RaisesException message =>
        out.2 = None ∧ status job = FAILED ∧ error job = Some message ∧
        completed_at job = Some t_end
    | RaisesBaseException name =>
        out.2 = Some name ∧ status job = RUNNING
    end ∧
    (_redis_client store = None ∨
     on_save (last_calls work rc_run rc_end) = RedisOk →
     ∀ rc, get_job out.1 job_id rc = Some job).

(** The record [create_job] makes for [job_id] at [now]. *)
Definition fresh_job (job_id : string) (now : datetime) : JobResult :=
  {| job_id := job_id; status := PENDING; created_at := now;
     completed_at := None; result := None; error := None |}.

(** A task that Celery reports as being retried. *)
Definition retried_task : CeleryApp.AsyncResult :=
  {| CeleryApp.ar_status := "RETRY"; CeleryApp.ar_result := None;
     CeleryApp.ar_ready := false; CeleryApp.ar_failed := false |}.

(** The native states that [status_map] lists. *)
Definition mapped_states : list string :=
  ["PENDING"; "STARTED"; "SUCCESS"; "FAILURE"; "REVOKED"].

(** A [select] step. *)
Definition select_step : TestRunner.Step :=
  <["type" := TestRunner.PyStr "select"]>
  (<["selector" := TestRunner.PyStr "#country"]>
  (<["value" := TestRunner.PyStr "FR"]> ∅)).

(** The four steps of the determinism example. *)
Definition example_steps : list TestRunner.Step :=
  [ <["type" := TestRunner.PyStr "navigate"]>
      (<["url" := TestRunner.PyStr "https://x"]> ∅);
    <["type" := TestRunner.PyStr "click"]>
      (<["selector" := TestRunner.PyStr "#btn"]> ∅);
    <["type" := TestRunner.PyStr "type"]>
      (<["selector" := TestRunner.PyStr "#inp"]>
      (<["value" := TestRunner.PyStr "hello"]> ∅));
    <["type" := TestRunner.PyStr "wait"]>
      (<["duration" := TestRunner.PyInt 500]> ∅) ].

(** Newest first. *)
Definition newest_first (jobs : list JobResult) : Prop :=
  StronglySorted (λ a b, (created_at b ≤ created_at a)%Z) jobs.

(** A job whose completion did not reach Redis: the local map has it
    completed, Redis still has it running. *)
Definition stale_redis_store : JobStore :=
  run_ops with_redis
    [Create "job-1" 100%Z RedisOk;
     MarkRunning "job-1" 110%Z redis_up;
     MarkCompleted "job-1" "{}" 200%Z redis_write_fails].

Definition stale_running_record : JobResult :=
  {| job_id := "job-1"; status := RUNNING; created_at := 100%Z;
     completed_at := None; result := None; error := None |}.

(** ** [api/routes.py]: submitting, polling and listing *)

Module Routes.

(** [class JobResponse(BaseModel)]. *)
Record JobResponse := mkJobResponse {
  resp_job_id : string;
  resp_status : JobStatus;
  resp_created_at : datetime;
  resp_message : string
}.

(** The shape shared by the four [*_async] handlers: [job_id] is the fresh
    [str(uuid4())], the record is created, the background task is queued
    (it runs later, as [run_background_job]) and the response is built. *)
Definition submit_async (message : string) (store : JobStore)
    (job_id : string) (now : datetime) (rc : redis_call)
  : JobStore * JobResponse :=
  let created := create_job store job_id now rc in
  (created.1,
   {| resp_job_id := job_id;
      resp_status := PENDING;
      resp_created_at := created_at created.2;
      resp_message := message |}).

Definition analyze_code_async := submit_async "Analysis job queued".

Definition generate_tests_async := submit_async "Test generation job queued".

Definition parse_requirements_async :=
  submit_async "Requirements parsing job queued".

Definition build_scenario_async := submit_async "Scenario build job queued".

(** What [GET /jobs/{job_id}] gives back: the record, or an [HTTPException]
    with its status code. *)
Inductive JobStatusResponse :=
  | JobFound (job : JobResult)
  | JobError (status_code : Z).

Definition get_job_status (store : JobStore) (job_id : string)
    (rc : redis_call) : JobStatusResponse :=
  match get_job store job_id rc with
  | Some job => JobFound job
  | None => JobError HTTP_404_NOT_FOUND
  end.

(** The status filter of [GET /jobs]: an absent or empty query parameter,
    and one that [JobStatus(...)] rejects with [ValueError], leave
    [filter_status] at [None]. *)
Definition parse_status_filter (status_filter : option string)
  : option JobStatus :=
  match status_filter with
  | Some text => if decide (text = "") then None else JobStatus_of_value text
  | None => None
  end.

Definition list_jobs (store : JobStore) (batches : list (list string))
    (status_filter : option string) (limit : Z) : list JobResult :=
  list_jobs store batches (parse_status_filter status_filter) limit.

End Routes.

(** ** [backend/app/routers/test_runner.py] and the runner's launch *)

Module TestRunnerRouter.

(** [class TestStep(BaseModel)]. *)
Record TestStep := mkTestStep {
  step_type : string;
  selector : option string;
  value : option string;
  url : option string;
  duration : option Z
}.

Definition dump_str (field : option string) : TestRunner.PyVal :=
  match field with
  | Some text => TestRunner.PyStr text
  | None => TestRunner.PyNone
  end.

Definition dump_int (field : option Z) : TestRunner.PyVal :=
  match field with
  | Some n => TestRunner.PyInt n
  | None => TestRunner.PyNone
  end.

(** [step.model_dump()]: every field of the model is a key of the
    dictionary, an unset optional field with the value [None]. *)
Definition model_dump (step : TestStep) : TestRunner.Step :=
  <["type" := TestRunner.PyStr (step_type step)]>
  (<["selector" := dump_str (selector step)]>
  (<["value" := dump_str (value step)]>
  (<["url" := dump_str (url step)]>
  (<["duration" := dump_int (duration step)]> ∅)))).

Definition cypress_browsers : list string := ["chrome"; "firefox"; "electron"].

Definition playwright_browsers : list string :=
  ["chromium"; "firefox"; "webkit"].

(** [request.browser if request.browser in [...] else "chrome"], and the
    same with the Playwright names in the [else] branch of the handler. *)
Definition runner_browser (framework : TestRunner.TestFramework)
    (browser : string) : string :=
  match framework with
  | TestRunner.CYPRESS =>
      if decide (browser ∈ cypress_browsers) then browser else "chrome"
  | TestRunner.PLAYWRIGHT =>
      if decide (browser ∈ playwright_browsers) then browser else "chromium"
  end.

(** The spec text that [run_test_steps] has the runner execute:
    [steps_dict] goes to [run_steps_as_cypress] or
    [run_steps_as_playwright], which synthesize it with the request's base
    URL. *)
Definition steps_spec (framework : TestRunner.TestFramework)
    (steps : list TestStep) (base_url : string) : string :=
  TestRunner.synthesize (model_dump <$> steps) base_url framework.

(** The command line of [run_cypress]. *)
Definition cypress_cmd (browser spec_file : string) (headless : bool)
  : list string :=
  ["npx"; "cypress"; "run"; "--browser"; browser; "--spec"; spec_file]
  ++ (if headless then ["--headless"] else []).

(** The command line of [run_playwright]. *)
Definition playwright_cmd (spec_file : string) : list string :=
  ["npx"; "playwright"; "test"; spec_file].

(** [timeout // 1000 + 30]: the deadline in seconds that [run_cypress] and
    [run_playwright] give to [_run_process] for a test timeout in
    milliseconds. *)
Definition process_timeout (timeout : Z) : Z := (timeout `div` 1000 + 30)%Z.

(** The step types with a branch in the synthesizers. *)
Definition step_types : list string :=
  ["navigate"; "click"; "type"; "verify"; "wait"].

End TestRunnerRouter.

(** ** [agents/scenario_builder.py]: code from scenario steps *)

Module ScenarioBuilder.

(** [class TestFramework(str, Enum)] of [api/schemas.py]. *)
Inductive TestFramework :=
  PYTEST | UNITTEST | JEST | MOCHA | PLAYWRIGHT | CYPRESS.

Definition TestFramework_value (framework : TestFramework) : string :=
  match framework with
  | PYTEST => "pytest"
  | UNITTEST => "unittest"
  | JEST => "jest"
  | MOCHA => "mocha"
  | PLAYWRIGHT => "playwright"
  | CYPRESS => "cypress"
  end.

(** [class ScenarioStep(BaseModel)]. *)
Record ScenarioStep := mkScenarioStep {
  id : string;
  type : string;
  action : string;
  target : option string;
  selector : option string;
  value : option string;
  timeout : option Z
}.

(** The text an f-string puts for an optional string. *)
Definition fmt (field : option string) : string :=
  match field with
  | Some text => text
  | None => "None"
  end.

(** [step.timeout or 5000]. *)
Definition wait_timeout (step : ScenarioStep) : Z :=
  match timeout step with
  | Some t => if decide (t = 0%Z) then 5000%Z else t
  | None => 5000%Z
  end.

(** The lines one step appends in [_generate_cypress_code]. *)
Definition cypress_step (step : ScenarioStep) : list string :=
  if decide (action step = "navigate") then
    ["    cy.visit('" +:+ fmt (value step) +:+ "');"]
  else if decide (action step = "click") then
    ["    cy.get('" +:+ fmt (selector step) +:+ "').click();"]
  else if decide (action step = "type") then
    ["    cy.get('" +:+ fmt (selector step) +:+ "').type('"
       +:+ fmt (value step) +:+ "');"]
  else if decide (action step = "select") then
    ["    cy.get('" +:+ fmt (selector step) +:+ "').select('"
       +:+ fmt (value step) +:+ "');"]
  else if decide (action step = "assert") then
    if decide (type step = "visible") then
      ["    cy.get('" +:+ fmt (selector step) +:+ "').should('be.visible');"]
    else if decide (type step = "contains") then
      ["    cy.get('" +:+ fmt (selector step) +:+ "').should('contain', '"
         +:+ fmt (value step) +:+ "');"]
    else if decide (type step = "url") then
      ["    cy.url().should('include', '" +:+ fmt (value step) +:+ "');"]
    else []
  else if decide (action step = "wait") then
    ["    cy.wait(" +:+ Py.str_of_int (wait_timeout step) +:+ ");"]
  else [].

(** The lines one step appends in [_generate_playwright_code]. *)
Definition playwright_step (step : ScenarioStep) : list string :=
  if decide (action step = "navigate") then
    ["    await page.goto('" +:+ fmt (value step) +:+ "');"]
  else if decide (action step = "click") then
    ["    await page.click('" +:+ fmt (selector step) +:+ "');"]
  else if decide (action step = "type") then
    ["    await page.fill('" +:+ fmt (selector step) +:+ "', '"
       +:+ fmt (value step) +:+ "');"]
  else if decide (action step = "select") then
    ["    await page.selectOption('" +:+ fmt (selector step) +:+ "', '"
       +:+ fmt (value step) +:+ "');"]
  else if decide (action step = "assert") then
    if decide (type step = "visible") then
      ["    await expect(page.locator('" +:+ fmt (selector step)
         +:+ "')).toBeVisible();"]
    else if decide (type step = "contains") then
      ["    await expect(page.locator('" +:+ fmt (selector step)
         +:+ "')).toContainText('" +:+ fmt (value step) +:+ "');"]
    else if decide (type step = "url") then
      ["    await expect(page).toHaveURL(/" +:+ fmt (value step) +:+ "/);"]
    else []
  else if decide (action step = "wait") then
    ["    await page.waitForTimeout(" +:+ Py.str_of_int (wait_timeout step)
       +:+ ");"]
  else [].

(** [test_lines] after the loop. *)
Definition test_lines (per_step : ScenarioStep → list string)
    (steps : list ScenarioStep) : list string :=
  foldl (λ lines step, lines ++ per_step step) [] steps.

(** ["\n".join(test_lines) if test_lines else "    // Add test steps"]. *)
Definition test_body (lines : list string) : string :=
  match lines with
  | [] => "    // Add test steps"
  | _ => Py.join Py.nl lines
  end.

(** [before_each or "// Setup"], where [before_each] is the given statement
    for a base URL that is neither [None] nor empty. *)
Definition before_each (visit : string → string) (base_url : option string)
  : string :=
  match base_url with
  | Some text => if decide (text = "") then "// Setup" else visit text
  | None => "// Setup"
  end.

(** [CYPRESS_CODE_TEMPLATE.format(...)]. *)
Definition CYPRESS_CODE_TEMPLATE (name before test_name body : string)
  : string :=
  Py.join Py.nl
    ["describe('" +:+ name +:+ "', () => {";
     "  beforeEach(() => {";
     "    " +:+ before;
     "  });";
     "";
     "  it('" +:+ test_name +:+ "', () => {";
     "    " +:+ body;
     "  });";
     "});"].

(** [PLAYWRIGHT_CODE_TEMPLATE.format(...)]. *)
Definition PLAYWRIGHT_CODE_TEMPLATE (name before test_name body : string)
  : string :=
  Py.join Py.nl
    ["import { test, expect } from '@playwright/test';";
     "";
     "test.describe('" +:+ name +:+ "', () => {";
     "  test.beforeEach(async ({ page }) => {";
     "    " +:+ before;
     "  });";
     "";
     "  test('" +:+ test_name +:+ "', async ({ page }) => {";
     "    " +:+ body;
     "  });";
     "});"].

Definition _generate_cypress_code (steps : list ScenarioStep)
    (base_url : option string) : string :=
  CYPRESS_CODE_TEMPLATE "Generated Test Suite"
    (before_each (λ u, "cy.visit('" +:+ u +:+ "');") base_url)
    "should complete the test scenario"
    (test_body (test_lines cypress_step steps)).

Definition _generate_playwright_code (steps : list ScenarioStep)
    (base_url : option string) : string :=
  PLAYWRIGHT_CODE_TEMPLATE "Generated Test Suite"
    (before_each (λ u, "await page.goto('" +:+ u +:+ "');") base_url)
    "should complete the test scenario"
    (test_body (test_lines playwright_step steps)).

(** [if field:] on an optional string. *)
Definition truthy (field : option string) : bool :=
  match field with
  | Some text => negb (bool_decide (text = ""))
  | None => false
  end.

(** The lines [_generate_generic_code] appends for step number [i]. *)
Definition generic_step (i : nat) (step : ScenarioStep) : list string :=
  ["// Step " +:+ Py.str_of_int (Z.of_nat i) +:+ ": " +:+ action step]
  ++ (if truthy (target step) then ["// Target: " +:+ fmt (target step)]
      else [])
  ++ (if truthy (selector step) then ["// Selector: " +:+ fmt (selector step)]
      else [])
  ++ (if truthy (value step) then ["// Value: " +:+ fmt (value step)]
      else [])
  ++ [""].

(** The loop over [enumerate(steps, 1)], from step number [i] on. *)
Fixpoint generic_lines (i : nat) (steps : list ScenarioStep) : list string :=
  match steps with
  | [] => []
  | step :: rest => generic_step i step ++ generic_lines (S i) rest
  end.

Definition _generate_generic_code (steps : list ScenarioStep)
    (framework : TestFramework) : string :=
  Py.join Py.nl
    (["// Test code for " +:+ TestFramework_value framework; ""]
     ++ generic_lines 1 steps).

Definition _generate_code (steps : list ScenarioStep)
    (framework : TestFramework) (base_url : option string) : string :=
  match framework with
  | CYPRESS => _generate_cypress_code steps base_url
  | PLAYWRIGHT => _generate_playwright_code steps base_url
  | _ => _generate_generic_code steps framework
  end.

(** The steps for which the Cypress and Playwright generators have a
    statement. *)
Definition has_statement (step : ScenarioStep) : bool :=
  bool_decide (action step ∈ ["navigate"; "click"; "type"; "select"; "wait"])
  || (bool_decide (action step = "assert")
      && bool_decide (type step ∈ ["visible"; "contains"; "url"])).

End ScenarioBuilder.

(** ** Further predicates and scenarios *)

(** Redis, if in use, has no entry for [job_id]. *)
Definition absent_from_redis (store : JobStore) (job_id : string) : Prop :=
  ∀ db, _redis_client store = Some db → db !! _job_key job_id = None.


(** A job created at 100, started at 110 and completed at 200 with the
    payload [{}], mirrored to Redis. *)
Definition completed_redis_store : JobStore :=
  run_ops with_redis
    [Create "job-1" 100%Z RedisOk;
     MarkRunning "job-1" 110%Z redis_up;
     MarkCompleted "job-1" "{}" 200%Z redis_up].

(** A stand-in for the ISO text of a timestamp in examples: its count of
    microseconds in decimal, and the reading of such a text. *)
Definition decimal_isoformat (t : datetime) : string := Py.str_of_int t.

Definition decimal_fromisoformat (text : string) : option datetime :=
  Z.of_int <$> NilZero.int_of_string text.



(** The steps for which [_steps_to_cypress] and [_steps_to_playwright] have
    a statement: the [type] is one of the five strings of their branches. *)
Definition step_has_statement (step : TestRunner.Step) : bool :=
  match step !! "type" with
  | Some (TestRunner.PyStr text) =>
      bool_decide (text ∈ TestRunnerRouter.step_types)
  | _ => false
  end.

(** The browsers a flavor accepts. *)
Definition allowed_browsers (framework : TestRunner.TestFramework)
  : list string :=
  match framework with
  | TestRunner.CYPRESS => TestRunnerRouter.cypress_browsers
  | TestRunner.PLAYWRIGHT => TestRunnerRouter.playwright_browsers
  end.

(** A navigation step of a request that gives no URL. *)
Definition navigate_without_url : TestRunnerRouter.TestStep :=
  {| TestRunnerRouter.step_type := "navigate";
     TestRunnerRouter.selector := None;
     TestRunnerRouter.value := None;
     TestRunnerRouter.url := None;
     TestRunnerRouter.duration := None |}.

(* ===================================================================== *)
(** * Part II: lemmas and theorems                                        *)
(* ===================================================================== *)

(** ** Dictionaries *)

Section dict.
Context {V : Type}.
Implicit Types (d : list (string * V)) (k : string) (v : V).

Lemma dict_get_set_eq d k v : Py.dict_get (Py.dict_set d k v) k = Some v.
Proof.
  induction d as [|[k' v'] d IH]; simpl.
  - by rewrite decide_True.
  - destruct (decide (k' = k)) as [->|Hne]; simpl.
    + by rewrite decide_True.
    + by rewrite decide_False.
Qed.

Lemma dict_get_set_ne d k k' v :
  k ≠ k' → Py.dict_get (Py.dict_set d k v) k' = Py.dict_get d k'.
Proof.
  intros Hne. induction d as [|[k0 v0] d IH]; simpl.
  - by rewrite decide_False.
  - destruct (decide (k0 = k)) as [->|Hne0]; simpl.
    + by rewrite !decide_False.
    + by rewrite IH.
Qed.

Lemma dict_keys_set_in d k v : k ∈ d.*1 → (Py.dict_set d k v).*1 = d.*1.
Proof.
  induction d as [|[k0 v0] d IH]; csimpl.
  - by intros ?%elem_of_nil.
  - destruct (decide (k0 = k)) as [->|Hne0]; csimpl; [done|].
    intros [?|Hin]%elem_of_cons; [congruence|]. by rewrite IH.
Qed.

Lemma dict_keys_set_new d k v :
  k ∉ d.*1 → (Py.dict_set d k v).*1 = d.*1 ++ [k].
Proof.
  induction d as [|[k0 v0] d IH]; csimpl; [done|].
  intros [Hne Hnin]%not_elem_of_cons.
  rewrite decide_False by done. csimpl. by rewrite IH.
Qed.

Lemma dict_set_NoDup d k v : NoDup d.*1 → NoDup (Py.dict_set d k v).*1.
Proof.
  intros Hnd. destruct (decide (k ∈ d.*1)) as [Hin|Hnin].
  - by rewrite dict_keys_set_in.
  - rewrite dict_keys_set_new by done.
    apply NoDup_app. split_and!; [done| |apply NoDup_singleton].
    intros x Hx ->%list_elem_of_singleton. done.
Qed.

Lemma dict_set_elem d k v kv :
  kv ∈ Py.dict_set d k v → kv = (k, v) ∨ kv ∈ d.
Proof.
  induction d as [|[k0 v0] d IH]; simpl.
  - intros ->%list_elem_of_singleton. by left.
  - destruct (decide (k0 = k)) as [->|Hne0].
    + intros [->|Hin]%elem_of_cons; [by left|].
      right. apply elem_of_cons. by right.
    + intros [->|Hin]%elem_of_cons.
      * right. apply elem_of_cons. by left.
      * destruct (IH Hin) as [->|?]; [by left|].
        right. apply elem_of_cons. by right.
Qed.

Lemma dict_get_Some_elem d k v : Py.dict_get d k = Some v → (k, v) ∈ d.
Proof.
  induction d as [|[k0 v0] d IH]; simpl; [done|].
  destruct (decide (k0 = k)) as [->|Hne0].
  - intros [= ->]. apply elem_of_cons; by left.
  - intros H. apply elem_of_cons; right; auto.
Qed.

Lemma dict_get_elem_NoDup d k v :
  NoDup d.*1 → (k, v) ∈ d → Py.dict_get d k = Some v.
Proof.
  induction d as [|[k0 v0] d IH]; csimpl.
  - by intros _ ?%elem_of_nil.
  - intros [Hnin Hnd]%NoDup_cons [[= -> ->]|Hin]%elem_of_cons.
    + by rewrite decide_True.
    + rewrite decide_False; [by apply IH|].
      intros ->. apply Hnin. apply list_elem_of_fmap. by exists (k, v).
Qed.
End dict.

(** ** The job store *)

Lemma JobStatus_of_value_value st :
  JobStatus_of_value (JobStatus_value st) = Some st.
Proof. by destruct st. Qed.

(** Reading back the dictionary of a record gives the record, when the ISO
    text of its timestamps reads back as the timestamps, as Python's
    [fromisoformat] does on the output of [isoformat], and the ISO text of
    the completion time is not empty. *)
Lemma dict_to_job_to_dict isoformat fromisoformat job :
  fromisoformat (isoformat (created_at job)) = Some (created_at job) →
  (∀ t, completed_at job = Some t →
        fromisoformat (isoformat t) = Some t ∧ isoformat t ≠ "") →
  _dict_to_job fromisoformat (_job_to_dict isoformat job) = Some job.
Proof.
  intros Hcreated Hcompleted. unfold _dict_to_job, _job_to_dict.
  simplify_map_eq. rewrite JobStatus_of_value_value, Hcreated. simpl.
  destruct job as [id st created completed res err]. simpl in *.
  destruct completed as [t|]; simpl.
  - destruct (Hcompleted t eq_refl) as [Ht Hne].
    rewrite bool_decide_eq_false_2 by done. simpl. rewrite Ht. simpl.
    by destruct res, err.
  - by destruct res, err.
Qed.

Lemma job_key_inj a b : _job_key a = _job_key b → a = b.
Proof. unfold _job_key. cbn. intros H. by simplify_eq. Qed.

Lemma memory_wf_get d id job :
  memory_wf d → Py.dict_get d id = Some job → job_id job = id.
Proof.
  intros [_ Hall] Hget%dict_get_Some_elem.
  rewrite Forall_forall in Hall. by specialize (Hall _ Hget).
Qed.

Lemma memory_wf_set d job :
  memory_wf d → memory_wf (Py.dict_set d (job_id job) job).
Proof.
  intros [Hnd Hall]. split; [by apply dict_set_NoDup|].
  rewrite !Forall_forall in Hall |- *.
  intros kv [->|Hin]%dict_set_elem; [done|]. by apply Hall.
Qed.

Lemma get_job_wf store id rc job :
  store_wf store → get_job store id rc = Some job → job_id job = id.
Proof.
  intros [Hmem Hdb]. unfold get_job.
  destruct (_redis_client store) as [db|]; [destruct rc|];
    eauto using memory_wf_get.
  destruct (db !! _job_key id) as [job'|] eqn:Hk; eauto using memory_wf_get.
  intros [= ->]. apply Hdb in Hk. symmetry. by apply job_key_inj.
Qed.

Lemma save_job_wf store job rc :
  store_wf store → store_wf (_save_job store job rc).
Proof.
  intros [Hmem Hdb]. split; simpl; [by apply memory_wf_set|].
  destruct (_redis_client store) as [db|]; [|done].
  destruct rc; [|done]. by apply map_Forall_insert_2.
Qed.

Lemma update_job_wf store id st res err now rc :
  store_wf store → store_wf (update_job store id st res err now rc).1.
Proof.
  intros Hwf. unfold update_job.
  destruct (get_job store id (on_get rc)); simpl; [|done].
  by apply save_job_wf.
Qed.

Lemma apply_op_wf store op : store_wf store → store_wf (apply_op store op).
Proof.
  destruct op; simpl; intros Hwf;
    [by apply save_job_wf | by apply update_job_wf..].
Qed.

Lemma run_ops_wf ops store : store_wf store → store_wf (run_ops store ops).
Proof.
  revert store. induction ops as [|op ops IH]; intros store Hwf; [done|].
  apply IH. by apply apply_op_wf.
Qed.

(** Well-formedness of a given store can be checked by evaluation. *)
Lemma store_wf_by_decide store :
  bool_decide (store_wf store) = true → store_wf store.
Proof. apply bool_decide_eq_true_1. Qed.

(** Every store reached from an empty one is well formed. *)
Lemma reachable_store_wf init ops :
  init = memory_only ∨ init = with_redis → store_wf (run_ops init ops).
Proof.
  intros Hinit. apply run_ops_wf.
  destruct Hinit as [-> | ->]; apply store_wf_by_decide; by vm_compute.
Qed.

Lemma apply_update_job_id job st res err now :
  job_id (apply_update job st res err now) = job_id job.
Proof. by destruct st, res, err. Qed.

(** After a save, the local map answers with the saved record. *)
Lemma save_job_memory store job rc :
  Py.dict_get (_memory_store (_save_job store job rc)) (job_id job) = Some job.
Proof. apply dict_get_set_eq. Qed.

(** A save that reaches Redis, or no Redis at all: [get_job] answers with the
    saved record, whatever the next read meets. *)
Lemma get_after_save store job rc rc' :
  _redis_client store = None ∨ rc = RedisOk →
  get_job (_save_job store job rc) (job_id job) rc' = Some job.
Proof.
  intros Hok. unfold get_job. rewrite save_job_memory. simpl.
  destruct (_redis_client store) as [db|]; [|done].
  destruct Hok as [?| ->]; [done|]. destruct rc'; [|done].
  by rewrite lookup_insert_eq.
Qed.

Lemma get_job_stored store id rc job :
  get_job store id rc = Some job → stored store job.
Proof.
  unfold get_job, stored.
  destruct (_redis_client store) as [db|] eqn:Hdb; [destruct rc|];
    try (intros ?%dict_get_Some_elem; left; eauto; fail).
  destruct (db !! _job_key id) as [job'|] eqn:Hk.
  - intros [= ->]. right; eauto.
  - intros ?%dict_get_Some_elem. left; eauto.
Qed.

Lemma stored_save_job store job rc x :
  stored (_save_job store job rc) x → x = job ∨ stored store x.
Proof.
  intros [[key Hin]|(db & key & Hdb & Hk)]; simpl in *.
  - apply dict_set_elem in Hin as [[= _ ->]|Hin]; [by left|].
    right; left; eauto.
  - destruct (_redis_client store) as [db0|] eqn:Hdb0; [|done].
    destruct rc; simplify_eq.
    + apply lookup_insert_Some in Hk as [[_ ->]|[_ Hk]]; [by left|].
      right; right; eauto.
    + right; right; eauto.
Qed.

(** ** First-write-wins does not hold: terminal records are overwritten *)

Lemma update_job_found store id st res err now rc job :
  get_job store id (on_get rc) = Some job →
  update_job store id st res err now rc =
    (_save_job store (apply_update job st res err now) (on_save rc),
     Some (apply_update job st res err now)).
Proof. intros Hget. unfold update_job. by rewrite Hget. Qed.

(** C1, as stated, fails: on the completed record of [completed_store],
    [mark_failed] returns a record with another status, another
    [completed_at] and an [error], and [mark_running] one that is running
    again. *)
Lemma first_write_wins_counterexample :
  get_job completed_store "job-1" RedisOk = Some completed_record ∧
  is_terminal (status completed_record) = true ∧
  (mark_failed completed_store "job-1" "boom" 300%Z redis_up).2
    = Some overwritten_record ∧
  overwritten_record ≠ completed_record ∧
  get_job (mark_failed completed_store "job-1" "boom" 300%Z redis_up).1
    "job-1" RedisOk = Some overwritten_record ∧
  (status <$> (mark_running completed_store "job-1" 300%Z redis_up).2)
    = Some RUNNING.
Proof. by vm_compute. Qed.

(** C1, amended: the three updates are last-write-wins. On every record that
    [get_job] finds, terminal or not, [mark_running], [mark_completed] and
    [mark_failed] set the status they are called for, the terminal ones set
    [completed_at] to the current time, [mark_completed] replaces [result]
    and [mark_failed] replaces [error]; the other fields are kept. The
    record so changed is saved, returned, and held by the local map. *)
Theorem mark_overwrites_record store id job now rc :
  store_wf store →
  get_job store id (on_get rc) = Some job →
  let running :=
    {| job_id := job_id job; status := RUNNING; created_at := created_at job;
       completed_at := completed_at job; result := result job;
       error := error job |} in
  let completed res :=
    {| job_id := job_id job; status := COMPLETED;
       created_at := created_at job; completed_at := Some now;
       result := Some res; error := error job |} in
  let failed err :=
    {| job_id := job_id job; status := FAILED; created_at := created_at job;
       completed_at := Some now; result := result job;
       error := Some err |} in
  (mark_running store id now rc
     = (_save_job store running (on_save rc), Some running) ∧
   Py.dict_get (_memory_store (mark_running store id now rc).1) id
     = Some running) ∧
  (∀ res,
     mark_completed store id res now rc
       = (_save_job store (completed res) (on_save rc),
          Some (completed res)) ∧
     Py.dict_get (_memory_store (mark_completed store id res now rc).1) id
       = Some (completed res)) ∧
  (∀ err,
     mark_failed store id err now rc
       = (_save_job store (failed err) (on_save rc), Some (failed err)) ∧
     Py.dict_get (_memory_store (mark_failed store id err now rc).1) id
       = Some (failed err)).
Proof.
  intros Hwf Hget running completed failed.
  pose proof (get_job_wf _ _ _ _ Hwf Hget) as Hid.
  unfold mark_running, mark_completed, mark_failed.
  split; [|split]; intros; rewrite (update_job_found _ _ _ _ _ _ _ _ Hget);
    (split; [done|]); simpl; rewrite <- Hid; apply dict_get_set_eq.
Qed.

(** [mark_failed] on the completed record of [completed_store]. *)
Lemma mark_overwrites_record_witness :
  (mark_failed completed_store "job-1" "boom" 300%Z redis_up).2
    = Some overwritten_record.
Proof.
  edestruct (mark_overwrites_record completed_store "job-1" completed_record
               300%Z redis_up) as (_ & _ & H).
  - apply store_wf_by_decide. vm_compute. reflexivity.
  - reflexivity.
  - destruct (H "boom") as [-> _]. reflexivity.
Defined.

(** ** Result and error on one record *)

(** C2, as stated, fails: after create, [mark_completed] and [mark_failed]
    on the same id the stored record is failed and carries both a result
    and an error. *)
Lemma result_error_exclusive_counterexample :
  let store :=
    run_ops memory_only
      [Create "job-1" 100%Z RedisOk;
       MarkRunning "job-1" 110%Z redis_up;
       MarkCompleted "job-1" "{}" 200%Z redis_up;
       MarkFailed "job-1" "boom" 300%Z redis_up] in
  get_job store "job-1" RedisOk = Some overwritten_record ∧
  stored store overwritten_record ∧
  status overwritten_record = FAILED ∧
  result overwritten_record = Some "{}" ∧
  error overwritten_record = Some "boom" ∧
  ¬ record_inv overwritten_record.
Proof.
  intros store.
  assert (get_job store "job-1" RedisOk = Some overwritten_record) as Hget
    by (by vm_compute).
  split_and!; try done.
  - by eapply get_job_stored.
  - intros (Hres & _ & _). by specialize (Hres (mk_is_Some _ _ eq_refl)).
Qed.

Lemma record_inv_cases job :
  record_inv job ↔
  match result job, error job with
  | None, None => True
  | Some _, None => status job = COMPLETED
  | None, Some _ => status job = FAILED
  | Some _, Some _ => False
  end.
Proof.
  unfold record_inv.
  destruct (result job) as [r|], (error job) as [e|]; split;
    try (intros (Hres & Herr & Hboth));
    rewrite ?is_Some_alt in *; try tauto; try naive_solver.
Qed.

(** An update that spares terminal records keeps the invariant of the
    record it changes, for the three argument shapes the store uses. *)
Lemma record_inv_update job st res err now :
  record_inv job →
  negb (is_terminal (status job)) || bool_decide (status job = st) = true →
  match st, res, err with
  | RUNNING, None, None | COMPLETED, Some _, None | FAILED, None, Some _ => True
  | _, _, _ => False
  end →
  record_inv (apply_update job (Some st) res err now).
Proof.
  rewrite !record_inv_cases. intros Hinv Hsp Hshape.
  destruct st, res, err; try done; simpl in *;
    destruct (result job), (error job); try done;
    rewrite Hinv in Hsp; done.
Qed.

Lemma update_job_inv store id st res err now rc :
  (∀ job, stored store job → record_inv job) →
  spares_terminal store id rc st = true →
  match st, res, err with
  | RUNNING, None, None | COMPLETED, Some _, None | FAILED, None, Some _ => True
  | _, _, _ => False
  end →
  ∀ job, stored (update_job store id (Some st) res err now rc).1 job →
         record_inv job.
Proof.
  intros Hinv Hsp Hshape job. unfold update_job, spares_terminal in *.
  destruct (get_job store id (on_get rc)) as [old|] eqn:Hget; simpl; [|auto].
  intros [->|Hst]%stored_save_job; [|auto].
  apply record_inv_update; eauto using get_job_stored.
Qed.

Lemma apply_op_inv store op :
  (∀ job, stored store job → record_inv job) →
  op_spares_terminal store op = true →
  ∀ job, stored (apply_op store op) job → record_inv job.
Proof.
  intros Hinv Hsp job. destruct op; simpl in *.
  - intros [->|Hst]%stored_save_job; [|auto]. by apply record_inv_cases.
  - by apply update_job_inv.
  - by apply update_job_inv.
  - by apply update_job_inv.
Qed.

(** C2, amended: start from a store whose records all satisfy the invariant
    (an empty store, for one) and run any sequence of create, mark_running,
    mark_completed and mark_failed in which no update changes the status of
    a record that is already completed or failed. Then on every record held
    by the local map or by Redis, [result] is set only if the status is
    completed, [error] only if it is failed, and never both. *)
Theorem result_error_exclusive_when_terminal_spared ops store :
  (∀ job, stored store job → record_inv job) →
  ops_spare_terminal store ops = true →
  ∀ job, stored (run_ops store ops) job → record_inv job.
Proof.
  revert store. induction ops as [|op ops IH]; intros store Hinv Hsp; [done|].
  simpl in Hsp. apply andb_true_iff in Hsp as [Hop Hrest].
  apply IH; [|done]. by apply apply_op_inv.
Qed.

(** A job completed twice, the second write not reaching Redis. *)
Lemma result_error_exclusive_when_terminal_spared_witness :
  record_inv completed_record.
Proof.
  apply (result_error_exclusive_when_terminal_spared
           [Create "job-1" 100%Z RedisOk;
            MarkRunning "job-1" 110%Z redis_up;
            MarkCompleted "job-1" "{}" 200%Z redis_up;
            MarkCompleted "job-1" "{}" 200%Z redis_write_fails]
           with_redis).
  - intros job [[key Hin]|(db & key & Hdb & Hk)]; simpl in *.
    + by apply elem_of_nil in Hin.
    + by simplify_eq.
  - vm_compute. reflexivity.
  - apply (get_job_stored _ "job-1" RedisOk). vm_compute. reflexivity.
Defined.

(** ** The background wrappers *)

Lemma get_job_local store id rc old :
  Py.dict_get (_memory_store store) id = Some old →
  is_Some (get_job store id rc).
Proof.
  intros Hmem. unfold get_job. rewrite Hmem.
  destruct (_redis_client store) as [db|]; [destruct rc|]; eauto.
  destruct (db !! _job_key id); eauto.
Qed.

(** An update of a record that the local map holds: the local map holds the
    updated record, the store stays well formed, and [get_job] gives the
    updated record once the write reached Redis or there is no Redis. *)
Lemma update_job_local store id st res err now rc old :
  store_wf store →
  Py.dict_get (_memory_store store) id = Some old →
  ∃ job,
    (update_job store id st res err now rc).2
      = Some (apply_update job st res err now) ∧
    Py.dict_get (_memory_store (update_job store id st res err now rc).1) id
      = Some (apply_update job st res err now) ∧
    (_redis_client store = None ∨ on_save rc = RedisOk →
     ∀ rc', get_job (update_job store id st res err now rc).1 id rc'
            = Some (apply_update job st res err now)).
Proof.
  intros Hwf Hmem.
  destruct (get_job_local store id (on_get rc) old Hmem) as [job Hget].
  assert (job_id (apply_update job st res err now) = id) as Hid.
  { rewrite apply_update_job_id. by eapply get_job_wf. }
  exists job. rewrite (update_job_found _ _ _ _ _ _ _ _ Hget).
  cbn [fst snd]. split_and!; [done| |].
  - rewrite <- Hid. apply save_job_memory.
  - intros Hok rc'. rewrite <- Hid. by apply get_after_save.
Qed.


Lemma update_job_redis_client store id st res err now rc :
  _redis_client (update_job store id st res err now rc).1 = None ↔
  _redis_client store = None.
Proof.
  unfold update_job. destruct (get_job store id (on_get rc)); simpl; [|done].
  destruct (_redis_client store), (on_save rc); naive_solver.
Qed.

Lemma run_background_job_outcome store id work t_run t_end rc_run rc_end old :
  store_wf store →
  Py.dict_get (_memory_store store) id = Some old →
  wrapper_outcome run_background_job store id work t_run t_end rc_run rc_end.
Proof.
  intros Hwf Hmem. unfold wrapper_outcome, run_background_job.
  unfold mark_running, mark_completed, mark_failed.
  destruct (update_job_local store id (Some RUNNING) None None t_run rc_run
              old Hwf Hmem) as (job1 & _ & Hmem1 & Hget1).
  pose proof (update_job_wf store id (Some RUNNING) None None t_run rc_run Hwf)
    as Hwf1.
  pose proof (update_job_redis_client store id (Some RUNNING) None None t_run
                rc_run) as Hrc.
  set (store1 := (update_job store id (Some RUNNING) None None t_run rc_run).1)
    in *.
  destruct work as [payload|message|name].
  - destruct (update_job_local store1 id (Some COMPLETED) (Some payload) None
                t_end rc_end _ Hwf1 Hmem1) as (job2 & _ & Hmem2 & Hget2).
    eexists. simpl. split_and!; [exact Hmem2|done..|].
    intros Hok. apply Hget2. rewrite Hrc. done.
  - destruct (update_job_local store1 id (Some FAILED) None (Some message)
                t_end rc_end _ Hwf1 Hmem1) as (job2 & _ & Hmem2 & Hget2).
    eexists. simpl. split_and!; [exact Hmem2|done..|].
    intros Hok. apply Hget2. rewrite Hrc. done.
  - eexists. simpl. split_and!; [exact Hmem1|done..|]. exact Hget1.
Qed.

(** C3, as stated, fails: when the awaited work raises an exception outside
    [Exception] (here the cancellation of the task), [except Exception]
    lets it through and the record of the job stays running. *)
Lemma wrapper_terminal_counterexample :
  let out1 :=
    run_analysis_job pending_store "job-1"
      (RaisesBaseException "CancelledError") 110%Z 200%Z redis_up redis_up in
  let out2 :=
    run_scenario_build_job pending_store "job-1"
      (RaisesBaseException "CancelledError") 110%Z 200%Z redis_up redis_up in
  out1.2 = Some "CancelledError" ∧
  (status <$> get_job out1.1 "job-1" RedisOk) = Some RUNNING ∧
  (completed_at <$> get_job out1.1 "job-1" RedisOk) = Some None ∧
  out2.2 = Some "CancelledError" ∧
  (status <$> get_job out2.1 "job-1" RedisOk) = Some RUNNING.
Proof. by vm_compute. Qed.

(** C3, amended: for a job whose record the local map holds (the submitting
    handler has created it), if the work returns, the wrapper ends with the
    record completed and carrying the payload; if the work raises an
    exception that derives from [Exception], the wrapper ends with the record
    failed and carrying the message of the exception. In both cases no
    exception leaves the wrapper and the record of the local map is
    terminal. If the work raises an exception that does not derive from
    [Exception], that exception leaves the wrapper and the record is
    running. The copy read through [get_job] is the record of the local map
    once the last write reached Redis or no Redis is in use. *)
Theorem wrapper_delivers_terminal store id work t_run t_end rc_run rc_end old :
  store_wf store →
  Py.dict_get (_memory_store store) id = Some old →
  wrapper_outcome run_analysis_job store id work t_run t_end rc_run rc_end ∧
  wrapper_outcome run_scenario_build_job store id work t_run t_end
    rc_run rc_end.
Proof. intros. split; by eapply run_background_job_outcome. Qed.

(** The wrapper on a running job whose work raises, the last Redis write
    failing. *)
Lemma wrapper_delivers_terminal_witness :
  wrapper_outcome run_analysis_job running_redis_store "job-1"
    (RaisesException "LLM request failed") 120%Z 200%Z redis_up
    redis_write_fails.
Proof.
  eapply (wrapper_delivers_terminal running_redis_store "job-1"
            (RaisesException "LLM request failed")).
  - apply store_wf_by_decide. vm_compute. reflexivity.
  - vm_compute. reflexivity.
Defined.

(** ** Cancellation *)




(** ** Creating a job under an id in use *)

(** C10, as stated, fails when the Redis write raises: [create_job] under
    the id of the completed job of [completed_redis_store] returns the fresh
    record and puts it in the local map, but Redis keeps the completed
    record, and [get_job] goes on returning that one. *)
Lemma create_job_counterexample :
  let created := create_job completed_redis_store "job-1" 400%Z RedisError in
  get_job completed_redis_store "job-1" RedisOk = Some completed_record ∧
  created.2 = fresh_job "job-1" 400%Z ∧
  Py.dict_get (_memory_store created.1) "job-1"
    = Some (fresh_job "job-1" 400%Z) ∧
  get_job created.1 "job-1" RedisOk = Some completed_record ∧
  status completed_record = COMPLETED ∧
  completed_record ≠ fresh_job "job-1" 400%Z.
Proof. by vm_compute. Qed.

(** C10, amended: [create_job] does not look at what the store holds. For
    an id that the store already has, in the local map or in Redis and with
    a record of any status, it returns the fresh pending record (created
    now, no completion time, result or error) and the local map then holds
    that record under the id, in the place of the old one if it had one.
    The Redis copy is replaced when the write goes through, and [get_job]
    then answers with the fresh record; when the write raises, Redis keeps
    its old record, which [get_job] goes on returning while Redis answers,
    the fresh record being read only when the Redis call raises. *)
Theorem create_job_replaces store id now rc rc0 old :
  get_job store id rc0 = Some old →
  let store' := (create_job store id now rc).1 in
  (create_job store id now rc).2 = fresh_job id now ∧
  status (fresh_job id now) = PENDING ∧
  created_at (fresh_job id now) = now ∧
  completed_at (fresh_job id now) = None ∧
  result (fresh_job id now) = None ∧
  error (fresh_job id now) = None ∧
  Py.dict_get (_memory_store store') id = Some (fresh_job id now) ∧
  (is_Some (Py.dict_get (_memory_store store) id) →
   Py.dict_keys (_memory_store store') = Py.dict_keys (_memory_store store)) ∧
  (∀ db, _redis_client store = Some db →
         _redis_client store'
         = Some (match rc with
                 | RedisOk => <[_job_key id := fresh_job id now]> db
                 | RedisError => db
                 end)) ∧
  (rc = RedisOk ∨ absent_from_redis store id →
   ∀ rc', get_job store' id rc' = Some (fresh_job id now)) ∧
  (∀ db remote,
     _redis_client store = Some db → db !! _job_key id = Some remote →
     rc = RedisError →
     get_job store' id RedisOk = Some remote ∧
     get_job store' id RedisError = Some (fresh_job id now)).
Proof.
  intros _ store'. subst store'. unfold create_job. cbn [fst snd].
  fold (fresh_job id now).
  assert (Py.dict_get
            (_memory_store (_save_job store (fresh_job id now) rc)) id
          = Some (fresh_job id now)) as Hmem
    by apply (save_job_memory store (fresh_job id now)).
  split_and!; try done.
  - intros [local Hlocal]. cbn. apply dict_keys_set_in.
    apply dict_get_Some_elem in Hlocal.
    apply list_elem_of_fmap. by exists (id, local).
  - intros db Hdb. simpl. rewrite Hdb. by destruct rc.
  - intros Hok rc'. unfold get_job. rewrite Hmem. simpl.
    destruct (_redis_client store) as [db|] eqn:Hc; [|done].
    destruct rc'; [|by destruct rc].
    destruct rc.
    + by rewrite lookup_insert_eq.
    + destruct Hok as [[=]|Habs]. by rewrite (Habs db).
  - intros db remote Hdb Hk ->. unfold get_job. rewrite Hmem. simpl.
    by rewrite Hdb, Hk.
Qed.

(** [create_job] under the id of the completed job, the write reaching
    Redis. *)
Lemma create_job_replaces_witness :
  get_job (create_job completed_redis_store "job-1" 400%Z RedisOk).1 "job-1"
    RedisOk
  = Some (fresh_job "job-1" 400%Z).
Proof.
  edestruct (create_job_replaces completed_redis_store "job-1" 400%Z RedisOk
               RedisOk completed_record)
    as (_ & _ & _ & _ & _ & _ & _ & _ & _ & H & _).
  - vm_compute. reflexivity.
  - apply H. left. reflexivity.
Defined.

(** ** The status of a queued task *)

Lemma status_map_unmapped state :
  state ∉ mapped_states → CeleryApp.status_map !! state = None.
Proof.
  unfold mapped_states, CeleryApp.status_map. intros Hnot.
  repeat (apply not_elem_of_cons in Hnot as [? Hnot]).
  by rewrite !lookup_insert_ne, lookup_empty.
Qed.

(** C5, as stated, fails: a task in the native state RETRY is reported with
    the status "retry", the lower-cased native state, and without any
    error; it is neither "failed" nor flagged as an unknown state. *)
Lemma unknown_state_counterexample :
("RETRY" ∉ mapped_states) ∧
  CeleryApp.status (CeleryApp.get_task_status "task-1" retried_task) = "retry" ∧
  CeleryApp.status (CeleryApp.get_task_status "task-1" retried_task) ≠ "failed" ∧
  CeleryApp.error (CeleryApp.get_task_status "task-1" retried_task) = None.
Proof.
  split_and!; try (by vm_compute).
  unfold mapped_states. rewrite !not_elem_of_cons. split_and!; try done.
  apply not_elem_of_nil.
Qed.

(** C5, amended: PENDING is reported as pending, STARTED as running, SUCCESS
    as completed, FAILURE and REVOKED as failed; every other native state is
    reported as itself in lower case. The error is the text of the task's
    result when Celery says the task failed and is absent otherwise, so an
    unmapped state carries no error of its own. *)
Theorem get_task_status_mapping tid res :
  let out := CeleryApp.get_task_status tid res in
  (CeleryApp.ar_status res = "PENDING" → CeleryApp.status out = "pending") ∧
  (CeleryApp.ar_status res = "STARTED" → CeleryApp.status out = "running") ∧
  (CeleryApp.ar_status res = "SUCCESS" → CeleryApp.status out = "completed") ∧
  (CeleryApp.ar_status res = "FAILURE" → CeleryApp.status out = "failed") ∧
  (CeleryApp.ar_status res = "REVOKED" → CeleryApp.status out = "failed") ∧
  (CeleryApp.ar_status res ∉ mapped_states →
   CeleryApp.status out = Py.lower (CeleryApp.ar_status res)) ∧
  CeleryApp.error out =
    (if CeleryApp.ar_failed res
     then Some (CeleryApp.str (CeleryApp.ar_result res)) else None).
Proof.
  intros out. subst out. unfold CeleryApp.get_task_status. simpl.
  split_and!; try (by intros ->); [|done].
  intros Hnot. by rewrite status_map_unmapped.
Qed.

(** A task in the native state RECEIVED. *)
Lemma get_task_status_mapping_witness :
  CeleryApp.status
    (CeleryApp.get_task_status "task-1"
       {| CeleryApp.ar_status := "RECEIVED"; CeleryApp.ar_result := None;
          CeleryApp.ar_ready := false; CeleryApp.ar_failed := false |})
  = "received".
Proof.
  edestruct (get_task_status_mapping "task-1"
     {| CeleryApp.ar_status := "RECEIVED"; CeleryApp.ar_result := None;
        CeleryApp.ar_ready := false; CeleryApp.ar_failed := false |})
    as (_ & _ & _ & _ & _ & H & _).
  rewrite H; [reflexivity|]. simpl.
  unfold mapped_states. rewrite !not_elem_of_cons. split_and!; try done.
  apply not_elem_of_nil.
Defined.

(** ** The process runner *)

(** C6: the code on a timeout. When the wait for the subprocess times out
    and the kill goes through, [_run_process] returns a result with
    [success] false, exit code -1 and the error "Test timed out", which
    contains "timed out", and the kill is the last thing it does. When the
    process is gone by the time of the kill, so that [process.kill()]
    raises, the handler of the timeout is left through the outer
    [except Exception]: the result has [success] false and exit code -1, but
    its error is the text of that exception, which for the
    [ProcessLookupError] of a process that is gone is empty and does not
    contain "timed out". *)
Theorem run_process_timeout cmd cwd timeout :
  (let out :=
     TestRunner._run_process cmd cwd timeout (TestRunner.TimesOut None) in
   TestRunner.success out.1 = false ∧
   TestRunner.exit_code out.1 = (-1)%Z ∧
   TestRunner.error out.1 = Some "Test timed out" ∧
   Py.contains "timed out" "Test timed out" = true ∧
   TestRunner.stdout out.1 = "" ∧
   TestRunner.stderr out.1 = "" ∧
   out.2 = [TestRunner.CreateSubprocess cmd cwd;
            TestRunner.WaitForCommunicate timeout;
            TestRunner.Kill] ∧
   last out.2 = Some TestRunner.Kill) ∧
  (∀ message,
     let out :=
       TestRunner._run_process cmd cwd timeout
         (TestRunner.TimesOut (Some message)) in
     TestRunner.success out.1 = false ∧
     TestRunner.exit_code out.1 = (-1)%Z ∧
     TestRunner.error out.1 = Some message ∧
     last out.2 = Some TestRunner.Kill) ∧
  TestRunner.error
    (TestRunner._run_process cmd cwd timeout
       (TestRunner.TimesOut (Some ""))).1 = Some "" ∧
  Py.contains "timed out" "" = false.
Proof. by split_and!. Qed.

(** ** The step synthesizer *)

Lemma foldl_append_lines {A} (f : A → list string) steps init :
  foldl (λ lines step, lines ++ f step) init steps = init ++ (steps ≫= f).
Proof.
  revert init. induction steps as [|step steps IH]; intros init; simpl.
  - by rewrite app_nil_r.
  - by rewrite IH, <- app_assoc.
Qed.

Lemma statements_skip_empty {A} (f : A → list string) before step after :
  f step = [] → (before ++ step :: after) ≫= f = (before ++ after) ≫= f.
Proof. intros Hnil. by rewrite !bind_app, bind_cons, Hnil. Qed.

(** C7, as stated, fails: for a [select] step neither flavor emits a
    statement, and the script of the step alone is the script of no step
    at all. *)
Lemma select_step_counterexample :
  select_step !! "type" = Some (TestRunner.PyStr "select") ∧
  TestRunner.emitted select_step "https://base" TestRunner.CYPRESS = [] ∧
  TestRunner.emitted select_step "https://base" TestRunner.PLAYWRIGHT = [] ∧
  length (TestRunner.emitted select_step "https://base" TestRunner.CYPRESS)
    ≠ 1 ∧
  TestRunner.synthesize [select_step] "https://base" TestRunner.CYPRESS
    = TestRunner.synthesize [] "https://base" TestRunner.CYPRESS ∧
  TestRunner.synthesize [select_step] "https://base" TestRunner.PLAYWRIGHT
    = TestRunner.synthesize [] "https://base" TestRunner.PLAYWRIGHT.
Proof. by vm_compute. Qed.

(** C7, amended: for every step whose action is "select" the synthesizer
    emits no statement, in both flavors; the step is skipped, and the script
    is the one of the steps without it. *)
Theorem select_step_skipped step base_url flavor :
  step !! "type" = Some (TestRunner.PyStr "select") →
  TestRunner.emitted step base_url flavor = [] ∧
  ∀ before after,
    TestRunner.synthesize (before ++ step :: after) base_url flavor
    = TestRunner.synthesize (before ++ after) base_url flavor.
Proof.
  intros Htype.
  assert (TestRunner.cypress_step step base_url = []) as Hcy.
  { unfold TestRunner.cypress_step, TestRunner.get. by rewrite Htype. }
  assert (TestRunner.playwright_step step base_url = []) as Hpw.
  { unfold TestRunner.playwright_step, TestRunner.get. by rewrite Htype. }
  split; [by destruct flavor|]. intros before after.
  destruct flavor; unfold TestRunner.synthesize, TestRunner._steps_to_cypress,
    TestRunner._steps_to_playwright, TestRunner.cypress_lines,
    TestRunner.playwright_lines;
    rewrite !foldl_append_lines; by erewrite statements_skip_empty.
Qed.

(** The [select] step in the Playwright flavor. *)
Lemma select_step_skipped_witness :
  TestRunner.emitted select_step "https://base" TestRunner.PLAYWRIGHT = [].
Proof.
  apply (select_step_skipped select_step "https://base" TestRunner.PLAYWRIGHT).
  reflexivity.
Defined.

(** C8: the synthesizer is a function of the steps, the base URL and the
    flavor alone, so two calls on the same input give the same text. On the
    four example steps with base URL https://base the Cypress and the
    Playwright scripts are the ones below: each has one navigation, to
    https://x, and none to the base URL, one click on #btn, one typing of
    hello into #inp and one wait of 500. *)
Theorem synthesize_deterministic_example :
  (∀ steps base_url flavor,
     TestRunner.synthesize steps base_url flavor
     = TestRunner.synthesize steps base_url flavor) ∧
  let cy := TestRunner.synthesize example_steps "https://base"
              TestRunner.CYPRESS in
  let pw := TestRunner.synthesize example_steps "https://base"
              TestRunner.PLAYWRIGHT in
  cy = Py.join Py.nl
         ["describe('Test', () => {";
          "  it('runs the test steps', () => {";
          "    cy.visit('https://x');";
          "    cy.get('#btn').click();";
          "    cy.get('#inp').type('hello');";
          "    cy.wait(500);";
          "  });";
          "});"] ∧
  pw = Py.join Py.nl
         ["const { test, expect } = require('@playwright/test');";
          "";
          "test('runs the test steps', async ({ page }) => {";
          "  await page.goto('https://x');";
          "  await page.click('#btn');";
          "  await page.fill('#inp', 'hello');";
          "  await page.waitForTimeout(500);";
          "});"] ∧
  Py.occurrences "cy.visit(" cy = 1 ∧
  Py.occurrences "cy.visit('https://x');" cy = 1 ∧
  Py.occurrences "https://base" cy = 0 ∧
  Py.occurrences ".click();" cy = 1 ∧
  Py.occurrences "cy.get('#btn').click();" cy = 1 ∧
  Py.occurrences ".type(" cy = 1 ∧
  Py.occurrences "cy.get('#inp').type('hello');" cy = 1 ∧
  Py.occurrences "cy.wait(" cy = 1 ∧
  Py.occurrences "cy.wait(500);" cy = 1 ∧
  Py.occurrences "page.goto(" pw = 1 ∧
  Py.occurrences "page.goto('https://x');" pw = 1 ∧
  Py.occurrences "https://base" pw = 0 ∧
  Py.occurrences "page.click(" pw = 1 ∧
  Py.occurrences "page.click('#btn');" pw = 1 ∧
  Py.occurrences "page.fill(" pw = 1 ∧
  Py.occurrences "page.fill('#inp', 'hello');" pw = 1 ∧
  Py.occurrences "page.waitForTimeout(" pw = 1 ∧
  Py.occurrences "page.waitForTimeout(500);" pw = 1.
Proof. split; [done|]. by vm_compute. Qed.

(** ** Listing jobs *)

Lemma slice_to_nonneg {A} (l : list A) n :
  (0 ≤ n)%Z → Py.slice_to l n = take (Z.to_nat n) l.
Proof. intros Hn. unfold Py.slice_to. by rewrite (proj2 (Z.leb_le 0 n) Hn). Qed.

Lemma insert_desc_Permutation job jobs : insert_desc job jobs ≡ₚ job :: jobs.
Proof.
  induction jobs as [|j jobs IH]; simpl; [done|].
  destruct (created_at job <? created_at j)%Z; [|done].
  rewrite IH. apply Permutation_swap.
Qed.

Lemma sort_created_desc_Permutation jobs : sort_created_desc jobs ≡ₚ jobs.
Proof.
  induction jobs as [|j jobs IH]; simpl; [done|].
  by rewrite insert_desc_Permutation, IH.
Qed.

Lemma insert_desc_sorted job jobs :
  newest_first jobs → newest_first (insert_desc job jobs).
Proof.
  unfold newest_first. induction 1 as [|j jobs Hs IH Hall]; simpl.
  - repeat constructor.
  - destruct (created_at job <? created_at j)%Z eqn:Hlt.
    + apply Z.ltb_lt in Hlt. constructor; [done|].
      rewrite insert_desc_Permutation. constructor; [lia|done].
    + apply Z.ltb_ge in Hlt. constructor; [by constructor|].
      constructor; [done|].
      eapply Forall_impl; [exact Hall|]. simpl. intros; lia.
Qed.

Lemma sort_created_desc_sorted jobs : newest_first (sort_created_desc jobs).
Proof.
  induction jobs as [|j jobs IH]; simpl; [constructor|].
  by apply insert_desc_sorted.
Qed.

Lemma newest_first_take n jobs : newest_first jobs → newest_first (take n jobs).
Proof.
  unfold newest_first. intros Hs. revert n.
  induction Hs as [|j jobs Hs IH Hall]; intros [|n]; simpl; try constructor.
  - apply IH.
  - eapply Forall_take in Hall. exact Hall.
Qed.

(** What one batch adds: the Redis entries of some of its keys, in order,
    all matching the filter. *)
Lemma scan_batch_spec db filter limit keys jobs :
  ∃ ks extra,
    scan_batch db filter limit keys jobs = jobs ++ extra ∧
    ks `sublist_of` keys ∧
    Forall2 (λ key job, db !! key = Some job) ks extra ∧
    Forall (λ job, status_matches filter job = true) extra.
Proof.
  revert jobs. induction keys as [|key keys IH]; intros jobs; simpl.
  - exists [], []. by rewrite app_nil_r.
  - destruct (db !! key) as [job|] eqn:Hk.
    + destruct (status_matches filter job) eqn:Hm.
      * destruct (limit_reached (jobs ++ [job]) limit).
        -- exists [key], [job]. split_and!; [done| |by repeat constructor..].
           apply sublist_skip, sublist_nil_l.
        -- destruct (IH (jobs ++ [job]))
             as (ks & extra & -> & Hsub & Hf & Hall).
           exists (key :: ks), (job :: extra).
           rewrite <- app_assoc. split_and!; [done| | |].
           ++ by apply sublist_skip.
           ++ by constructor.
           ++ by constructor.
      * destruct (IH jobs) as (ks & extra & -> & Hsub & Hf & Hall).
        exists ks, extra. split_and!; [done| |done|done]. by apply sublist_cons.
    + destruct (IH jobs) as (ks & extra & -> & Hsub & Hf & Hall).
      exists ks, extra. split_and!; [done| |done|done]. by apply sublist_cons.
Qed.

Lemma scan_loop_spec db filter limit batches jobs :
  ∃ ks extra,
    scan_loop db filter limit batches jobs = jobs ++ extra ∧
    ks `sublist_of` concat batches ∧
    Forall2 (λ key job, db !! key = Some job) ks extra ∧
    Forall (λ job, status_matches filter job = true) extra.
Proof.
  revert jobs. induction batches as [|keys batches IH]; intros jobs; simpl.
  - exists [], []. by rewrite app_nil_r.
  - destruct (scan_batch_spec db filter limit keys jobs)
      as (ks1 & extra1 & -> & Hsub1 & Hf1 & Hall1).
    destruct (limit_reached (jobs ++ extra1) limit).
    + exists ks1, extra1. split_and!; [done| |done|done].
      by apply sublist_inserts_r.
    + destruct (IH (jobs ++ extra1))
        as (ks2 & extra2 & -> & Hsub2 & Hf2 & Hall2).
      exists (ks1 ++ ks2), (extra1 ++ extra2).
      rewrite <- app_assoc. split_and!; [done| | |].
      * by apply sublist_app.
      * by apply Forall2_app.
      * by apply Forall_app.
Qed.

(** The records collected from a well-formed Redis database are the Redis
    copies of their ids, and no id comes twice when no key is scanned
    twice. *)
Lemma redis_jobs_spec store batches filter limit :
  store_wf store →
  Forall (λ job, status_matches filter job = true)
    (redis_jobs store batches filter limit) ∧
  (∀ job, job ∈ redis_jobs store batches filter limit →
     ∃ db, _redis_client store = Some db ∧
           db !! _job_key (job_id job) = Some job) ∧
  (NoDup (concat batches) →
   NoDup (job_id <$> redis_jobs store batches filter limit)).
Proof.
  intros [_ Hwf]. unfold redis_jobs.
  destruct (_redis_client store) as [db|];
    [|by split_and!; [|set_solver|constructor]].
  destruct (scan_loop_spec db filter limit batches [])
    as (ks & extra & -> & Hsub & Hf & Hall). simpl.
  assert (ks = _job_key <$> (job_id <$> extra)) as Hks.
  { clear Hsub Hall. induction Hf as [|key job ks extra Hk Hf IH]; [done|].
    csimpl. f_equal; [|done]. by apply Hwf in Hk. }
  split_and!; [done| |].
  - intros job Hin. exists db. split; [done|].
    clear Hks Hsub Hall.
    induction Hf as [|key job' ks extra Hk Hf IH]; [set_solver|].
    apply elem_of_cons in Hin as [->|Hin]; [|by apply IH].
    pose proof (Hwf _ _ Hk) as Hkey. simpl in Hkey. by rewrite <- Hkey.
  - intros Hnd. eapply sublist_NoDup in Hnd; [|exact Hsub].
    rewrite Hks in Hnd. by apply NoDup_fmap_1 in Hnd.
Qed.

Lemma id_listed_false jobs job :
  id_listed jobs job = false → job_id job ∉ job_id <$> jobs.
Proof.
  unfold id_listed. intros Hex (j & Heq & Hin)%list_elem_of_fmap.
  assert (existsb (λ j, bool_decide (job_id j = job_id job)) jobs = true)
    as Htrue; [|congruence].
  apply existsb_exists. exists j. split; [by apply list_elem_of_In|].
  by apply bool_decide_eq_true_2.
Qed.

(** What the pass over the local map adds: records of the map that match
    the filter and whose id is not listed yet. *)
Lemma memory_loop_spec filter limit values jobs :
  ∃ extra,
    memory_loop filter limit values jobs = jobs ++ extra ∧
    Forall (λ job, status_matches filter job = true ∧ job ∈ values ∧
                   job_id job ∉ job_id <$> jobs) extra ∧
    (NoDup (job_id <$> jobs) → NoDup (job_id <$> (jobs ++ extra))).
Proof.
  revert jobs. induction values as [|job rest IH]; intros jobs; simpl.
  - exists []. rewrite app_nil_r. by split_and!.
  - destruct (status_matches filter job) eqn:Hm.
    + destruct (id_listed jobs job) eqn:Hl.
      * destruct (IH jobs) as (extra & -> & Hall & Hnd).
        exists extra. split_and!; [done| |done].
        eapply Forall_impl; [exact Hall|]. simpl.
        intros j (? & ? & ?). split_and!; [done| |done].
        apply elem_of_cons. by right.
      * apply id_listed_false in Hl.
        assert (NoDup (job_id <$> jobs) → NoDup (job_id <$> (jobs ++ [job])))
          as Hnd1.
        { intros Hnd. rewrite fmap_app. apply NoDup_app. split_and!; [done| |].
          - intros x Hx ->%list_elem_of_singleton. done.
          - apply NoDup_singleton. }
        destruct (limit_reached (jobs ++ [job]) limit).
        -- exists [job]. split_and!; [done| |done].
           constructor; [|constructor]. split_and!; [done| |done].
           apply elem_of_cons. by left.
        -- destruct (IH (jobs ++ [job])) as (extra & -> & Hall & Hnd).
           exists (job :: extra). rewrite <- app_assoc. split_and!; [done| |].
           ++ constructor.
              ** split_and!; [done| |done]. apply elem_of_cons. by left.
              ** eapply Forall_impl; [exact Hall|]. simpl.
                 intros j (? & ? & Hnot). split_and!; [done| |].
                 --- apply elem_of_cons. by right.
                 --- intros Hin. apply Hnot. rewrite fmap_app.
                     apply elem_of_app. by left.
           ++ intros Hnd0. rewrite cons_middle, app_assoc. auto.
    + destruct (IH jobs) as (extra & -> & Hall & Hnd).
      exists extra. split_and!; [done| |done].
      eapply Forall_impl; [exact Hall|]. simpl.
      intros j (? & ? & ?). split_and!; [done| |done].
      apply elem_of_cons. by right.
Qed.

Lemma memory_values_get d job :
  memory_wf d → job ∈ Py.dict_values d → Py.dict_get d (job_id job) = Some job.
Proof.
  intros [Hnd Hall] ([key job'] & -> & Hin)%list_elem_of_fmap. simpl.
  rewrite Forall_forall in Hall. pose proof (Hall _ Hin) as Hkey.
  simpl in Hkey. subst key. by apply dict_get_elem_NoDup.
Qed.

(** C9, as stated, fails. The list of [stale_redis_store], which has the job
    completed in the local map and running in Redis, gives the running copy
    of Redis, the less advanced of the two. For the limit -1 the list is
    empty, which is more than -1 records. And when the scan reports a key
    twice, as a Redis scan may, the record is listed twice. *)
Lemma list_jobs_counterexample :
  Py.dict_get (_memory_store stale_redis_store) "job-1"
    = Some completed_record ∧
  (∃ db, _redis_client stale_redis_store = Some db ∧
         db !! _job_key "job-1" = Some stale_running_record) ∧
  list_jobs stale_redis_store [[_job_key "job-1"]] None 50
    = [stale_running_record] ∧
  status stale_running_record = RUNNING ∧
  status completed_record = COMPLETED ∧
  list_jobs stale_redis_store [[_job_key "job-1"]] None (-1) = [] ∧
  ¬ (Z.of_nat (length (list_jobs stale_redis_store [[_job_key "job-1"]]
                         None (-1))) ≤ -1)%Z ∧
  list_jobs stale_redis_store [[_job_key "job-1"]; [_job_key "job-1"]]
    None 50 = [stale_running_record; stale_running_record].
Proof.
  split_and!; try (by vm_compute).
  eexists. split; by vm_compute.
Qed.

(** C9, amended: for every status filter and every limit that is not
    negative, on a well-formed store, [list_jobs] returns at most [limit]
    records, each matching the filter, newest first; no id comes twice,
    given that the scan reports no key twice. A returned record is the
    Redis copy of its id, or it is the copy of the local map and then the
    scan has collected no record of that id: the copy of Redis, when it
    matches the filter and is collected within the limit, is the one
    returned, whichever of the two copies is the more advanced. *)
Theorem list_jobs_properties store batches filter limit :
  store_wf store →
  (0 ≤ limit)%Z →
  let out := list_jobs store batches filter limit in
  (Z.of_nat (length out) ≤ limit)%Z ∧
  (∀ job, job ∈ out → status_matches filter job = true) ∧
  newest_first out ∧
  (NoDup (concat batches) → NoDup (job_id <$> out)) ∧
  (∀ job, job ∈ out →
     (∃ db, _redis_client store = Some db ∧
            db !! _job_key (job_id job) = Some job) ∨
     (Py.dict_get (_memory_store store) (job_id job) = Some job ∧
      job_id job ∉ job_id <$> redis_jobs store batches filter limit)).
Proof.
  intros Hwf Hlimit out. subst out. unfold list_jobs.
  rewrite slice_to_nonneg by done.
  destruct (redis_jobs_spec store batches filter limit Hwf)
    as (Hrmatch & Hrcopy & Hrnd).
  destruct (memory_loop_spec filter limit
              (Py.dict_values (_memory_store store))
              (redis_jobs store batches filter limit))
    as (extra & -> & Hextra & Hnd).
  set (jobs0 := redis_jobs store batches filter limit) in *.
  assert (∀ job,
            job ∈ take (Z.to_nat limit) (sort_created_desc (jobs0 ++ extra))
            → job ∈ jobs0 ∨ job ∈ extra) as Hin.
  { intros job Hjob. apply elem_of_app.
    rewrite <- (sort_created_desc_Permutation (jobs0 ++ extra)).
    eapply elem_of_sublist; [exact Hjob|]. apply sublist_take. }
  rewrite Forall_forall in Hrmatch, Hextra.
  split_and!.
  - rewrite length_take. lia.
  - intros job [?|?]%Hin; [by apply Hrmatch|]. by apply Hextra.
  - apply newest_first_take, sort_created_desc_sorted.
  - intros Hbatches. rewrite fmap_take.
    eapply sublist_NoDup; [|apply sublist_take].
    rewrite sort_created_desc_Permutation. auto.
  - intros job [?|Hex]%Hin; [left; by apply Hrcopy|]. right.
    destruct (Hextra _ Hex) as (_ & Hval & Hnot). split; [|done].
    apply memory_values_get; [by destruct Hwf|done].
Qed.

(** The completed jobs of [stale_redis_store], at most two. *)
Lemma list_jobs_properties_witness :
  list_jobs stale_redis_store [[_job_key "job-1"]] (Some COMPLETED) 2
    = [completed_record] ∧
  NoDup (job_id <$> list_jobs stale_redis_store [[_job_key "job-1"]]
                      (Some COMPLETED) 2).
Proof.
  split; [vm_compute; reflexivity|].
  edestruct (list_jobs_properties stale_redis_store [[_job_key "job-1"]]
               (Some COMPLETED) 2) as (_ & _ & _ & H & _).
  - apply store_wf_by_decide. vm_compute. reflexivity.
  - lia.
  - apply H. simpl. apply NoDup_singleton.
Defined.

(* ===================================================================== *)
(** * Part III: further properties of the code                            *)
(* ===================================================================== *)

(** ** The stored dictionary *)

Lemma JobStatus_of_value_Some v st :
  JobStatus_of_value v = Some st → v = JobStatus_value st.
Proof.
  unfold JobStatus_of_value. repeat case_decide; by intros [= <-].
Qed.

(** X1: the dictionary form of a job. What [_job_to_dict] writes reads back
    through [_dict_to_job] as the job, given that the ISO text of the job's
    timestamps reads back as the timestamps (Python's [fromisoformat] on
    the output of [isoformat]) and that the ISO text of a completion time
    is not empty. The reading accepts more than is written: a dictionary
    with only [job_id], [status] and [created_at] reads as a job without
    completion time, result and error, and an empty [completed_at] reads as
    none, so that two dictionaries can read as the same job. A dictionary
    whose status is not one of the four lower-case status values, or that
    has no [job_id], is rejected. *)
Theorem job_dict_round_trip isoformat fromisoformat :
  (∀ job,
     fromisoformat (isoformat (created_at job)) = Some (created_at job) →
     (∀ t, completed_at job = Some t →
           fromisoformat (isoformat t) = Some t ∧ isoformat t ≠ "") →
     _dict_to_job fromisoformat (_job_to_dict isoformat job) = Some job) ∧
  (∀ id st text,
     _dict_to_job fromisoformat
       (<["job_id" := JStr id]>
        (<["status" := JStr (JobStatus_value st)]>
        (<["created_at" := JStr text]> ∅)))
     = (λ created,
          {| job_id := id; status := st; created_at := created;
             completed_at := None; result := None; error := None |})
       <$> fromisoformat text) ∧
  (∀ data,
     _dict_to_job fromisoformat (<["completed_at" := JStr ""]> data)
     = _dict_to_job fromisoformat (<["completed_at" := JNull]> data)) ∧
  (∀ data,
     (∀ st, data !! "status" ≠ Some (JStr (JobStatus_value st))) →
     _dict_to_job fromisoformat data = None) ∧
  (∀ data, data !! "job_id" = None → _dict_to_job fromisoformat data = None).
Proof.
  split_and!.
  - intros job. apply dict_to_job_to_dict.
  - intros id st text. unfold _dict_to_job. simplify_map_eq.
    rewrite JobStatus_of_value_value. simpl.
    by destruct (fromisoformat text).
  - intros data. unfold _dict_to_job. by simplify_map_eq.
  - intros data Hst. unfold _dict_to_job.
    destruct (data !! "job_id") as [[|id| |]|]; try done. simpl.
    destruct (data !! "status") as [[|text| |]|] eqn:Hs; try done.
    destruct (JobStatus_of_value text) as [st|] eqn:Hv; [|done].
    apply JobStatus_of_value_Some in Hv. subst text. by destruct (Hst st).
  - intros data Hid. unfold _dict_to_job. by rewrite Hid.
Qed.

(** The completed record, with timestamps written as decimal counts. *)
Lemma job_dict_round_trip_witness :
  _dict_to_job decimal_fromisoformat
    (_job_to_dict decimal_isoformat completed_record)
  = Some completed_record.
Proof.
  destruct (job_dict_round_trip decimal_isoformat decimal_fromisoformat)
    as (H & _).
  apply H.
  - vm_compute. reflexivity.
  - intros t [= <-]. split; [vm_compute; reflexivity|discriminate].
Defined.

(** ** Reading, deleting and the other jobs *)

Section dict_del.
Context {V : Type}.
Implicit Types (d : list (string * V)) (k : string) (v : V).

Lemma dict_del_sublist d k : Py.dict_del d k `sublist_of` d.
Proof.
  induction d as [|[k' v'] d IH]; simpl; [done|].
  case_decide; [by apply sublist_cons|by apply sublist_skip].
Qed.

Lemma dict_get_del_eq d k :
  NoDup d.*1 → Py.dict_get (Py.dict_del d k) k = None.
Proof.
  induction d as [|[k' v'] d IH]; csimpl; [done|].
  intros [Hnin Hnd]%NoDup_cons. case_decide as Hk; simpl.
  - subst k'. clear IH. induction d as [|[k0 v0] d IH]; csimpl; [done|].
    apply not_elem_of_cons in Hnin as [Hne Hnin].
    apply NoDup_cons in Hnd as [_ Hnd].
    rewrite decide_False by done. by apply IH.
  - rewrite decide_False by done. by apply IH.
Qed.

Lemma dict_get_del_ne d k k' :
  k ≠ k' → Py.dict_get (Py.dict_del d k) k' = Py.dict_get d k'.
Proof.
  intros Hne. induction d as [|[k0 v0] d IH]; simpl; [done|].
  destruct (decide (k0 = k)) as [->|Hne0]; simpl.
  - by rewrite decide_False.
  - by rewrite IH.
Qed.

Lemma dict_get_None_del d k : Py.dict_get d k = None → Py.dict_del d k = d.
Proof.
  induction d as [|[k0 v0] d IH]; simpl; [done|].
  case_decide; [done|]. intros Hget. by rewrite IH.
Qed.
End dict_del.

Lemma memory_wf_del d id : memory_wf d → memory_wf (Py.dict_del d id).
Proof.
  intros [Hnd Hall]. pose proof (dict_del_sublist d id) as Hsub. split.
  - eapply sublist_NoDup; [exact Hnd|]. by apply fmap_sublist.
  - rewrite !Forall_forall in Hall |- *. intros kv Hin. apply Hall.
    by eapply elem_of_sublist.
Qed.

Lemma delete_job_wf store id rc :
  store_wf store → store_wf (delete_job store id rc).1.
Proof.
  intros [Hmem Hdb]. unfold delete_job.
  assert (store_wf
            (match Py.dict_get (_memory_store store) id with
             | Some _ =>
                 ({| _memory_store := Py.dict_del (_memory_store store) id;
                     _redis_client := _redis_client store |}, true)
             | None => (store, false)
             end).1) as Hlocal.
  { destruct (Py.dict_get (_memory_store store) id); simpl; [|done].
    split; simpl; [by apply memory_wf_del|done]. }
  destruct (_redis_client store) as [db|] eqn:Hc; [|done].
  destruct rc; [|done].
  destruct (db !! _job_key id) eqn:Hk; [|done].
  split; simpl; [by apply memory_wf_del|].
  by apply map_Forall_delete.
Qed.

Lemma get_job_absent store id :
  Py.dict_get (_memory_store store) id = None →
  absent_from_redis store id →
  ∀ rc, get_job store id rc = None.
Proof.
  intros Hmem Habs rc. unfold get_job. rewrite Hmem.
  destruct (_redis_client store) as [db|] eqn:Hc; [|done].
  destruct rc; [|done]. by rewrite (Habs db).
Qed.

(** X2: for an id that neither the local map nor Redis has, every read
    answers nothing, the three updates and the deletion return nothing and
    leave the store as it is, a background wrapper run for the id writes
    nothing, and the handlers answer 404. *)
Theorem unknown_id_is_noop store id :
  Py.dict_get (_memory_store store) id = None →
  absent_from_redis store id →
  (∀ rc, get_job store id rc = None) ∧
  (∀ now rc, mark_running store id now rc = (store, None)) ∧
  (∀ res now rc, mark_completed store id res now rc = (store, None)) ∧
  (∀ err now rc, mark_failed store id err now rc = (store, None)) ∧
  (∀ rc, delete_job store id rc = (store, false)) ∧
  (∀ work t_run t_end rc_run rc_end,
     (run_background_job store id work t_run t_end rc_run rc_end).1 = store) ∧
  (∀ now rc rcs,
     cancel_job store id now rc rcs
       = (store, HTTPException HTTP_404_NOT_FOUND)) ∧
  (∀ rc, Routes.get_job_status store id rc
           = Routes.JobError HTTP_404_NOT_FOUND).
Proof.
  intros Hmem Habs. pose proof (get_job_absent store id Hmem Habs) as Hget.
  assert (∀ st res err now rc,
            update_job store id st res err now rc = (store, None)) as Hupd.
  { intros. unfold update_job. by rewrite Hget. }
  split_and!.
  - done.
  - intros. apply Hupd.
  - intros. apply Hupd.
  - intros. apply Hupd.
  - intros rc. unfold delete_job. rewrite Hmem.
    destruct (_redis_client store) as [db|] eqn:Hc; [|done].
    destruct rc; [|done]. by rewrite (Habs db).
  - intros. unfold run_background_job, mark_running, mark_completed,
      mark_failed. rewrite Hupd. simpl. destruct work; by rewrite ?Hupd.
  - intros. unfold cancel_job. by rewrite Hget.
  - intros. unfold Routes.get_job_status. by rewrite Hget.
Qed.

(** An update of a job that [completed_store] does not have. *)
Lemma unknown_id_is_noop_witness :
  mark_failed completed_store "job-2" "boom" 300%Z redis_up
    = (completed_store, None).
Proof.
  edestruct (unknown_id_is_noop completed_store "job-2")
    as (_ & _ & _ & H & _).
  - vm_compute. reflexivity.
  - intros db. vm_compute. discriminate.
  - apply H.
Defined.

(** X3: what [get_job] answers for an id that the local map has. It always
    answers with a record; it answers with the local record when the Redis
    call raises and when Redis has no entry for the id; it answers with the
    Redis entry, whatever the local record is, when Redis has one and the
    call goes through. *)
Theorem get_job_fallback store id old :
  Py.dict_get (_memory_store store) id = Some old →
  (∀ rc, is_Some (get_job store id rc)) ∧
  get_job store id RedisError = Some old ∧
  (absent_from_redis store id → ∀ rc, get_job store id rc = Some old) ∧
  (∀ db remote,
     _redis_client store = Some db → db !! _job_key id = Some remote →
     get_job store id RedisOk = Some remote).
Proof.
  intros Hmem. unfold get_job. rewrite Hmem. split_and!.
  - intros rc. destruct (_redis_client store) as [db|]; [destruct rc|]; eauto.
    destruct (db !! _job_key id); eauto.
  - by destruct (_redis_client store).
  - intros Habs rc. destruct (_redis_client store) as [db|] eqn:Hc; [|done].
    destruct rc; [|done]. by rewrite (Habs db).
  - intros db remote -> ->. done.
Qed.

(** The completed job of [stale_redis_store], read while Redis is down. *)
Lemma get_job_fallback_witness :
  get_job stale_redis_store "job-1" RedisError = Some completed_record.
Proof.
  edestruct (get_job_fallback stale_redis_store "job-1" completed_record)
    as (_ & H & _).
  - vm_compute. reflexivity.
  - exact H.
Defined.

Lemma get_job_save_ne store job rc id' rc' :
  job_id job ≠ id' →
  get_job (_save_job store job rc) id' rc' = get_job store id' rc'.
Proof.
  intros Hne. unfold get_job. simpl. rewrite dict_get_set_ne by done.
  destruct (_redis_client store) as [db|]; [|done].
  destruct rc, rc'; try done.
  rewrite lookup_insert_ne; [done|]. by intros ?%job_key_inj.
Qed.

Lemma get_job_update_ne store id st res err now rc id' rc' :
  store_wf store → id ≠ id' →
  get_job (update_job store id st res err now rc).1 id' rc'
  = get_job store id' rc'.
Proof.
  intros Hwf Hne. unfold update_job.
  destruct (get_job store id (on_get rc)) as [job|] eqn:Hget; [|done].
  simpl. apply get_job_save_ne. rewrite apply_update_job_id.
  by rewrite (get_job_wf _ _ _ _ Hwf Hget).
Qed.

Lemma get_job_delete_ne store id rc id' rc' :
  id ≠ id' →
  get_job (delete_job store id rc).1 id' rc' = get_job store id' rc'.
Proof.
  intros Hne. unfold delete_job.
  assert (get_job
            (match Py.dict_get (_memory_store store) id with
             | Some _ =>
                 ({| _memory_store := Py.dict_del (_memory_store store) id;
                     _redis_client := _redis_client store |}, true)
             | None => (store, false)
             end).1 id' rc' = get_job store id' rc') as Hlocal.
  { destruct (Py.dict_get (_memory_store store) id); [|done].
    unfold get_job. simpl. by rewrite dict_get_del_ne. }
  destruct (_redis_client store) as [db|] eqn:Hc; [|done].
  destruct rc; [|done].
  destruct (db !! _job_key id) eqn:Hk; [|done].
  unfold get_job. simpl. rewrite Hc, dict_get_del_ne by done.
  destruct rc'; [|done].
  rewrite lookup_delete_ne; [done|]. by intros ?%job_key_inj.
Qed.

Lemma cancel_job_wf store id now rc rcs :
  store_wf store → store_wf (cancel_job store id now rc rcs).1.
Proof.
  intros Hwf. unfold cancel_job.
  destruct (get_job store id rc) as [job|]; [|done].
  destruct (is_terminal (status job)); [done|]. by apply update_job_wf.
Qed.

Lemma run_background_job_wf store id work t_run t_end rc_run rc_end :
  store_wf store →
  store_wf (run_background_job store id work t_run t_end rc_run rc_end).1.
Proof.
  intros Hwf. unfold run_background_job.
  destruct work; simpl; repeat apply update_job_wf; done.
Qed.

(** X4: the operations on one job leave every other job alone. On a
    well-formed store, after creating, updating, deleting or cancelling the
    job [id], or running a background wrapper for it, [get_job] answers for
    any other id what it answered before. *)
Theorem other_jobs_untouched store id id' rc' :
  store_wf store →
  id ≠ id' →
  (∀ now rc,
     get_job (create_job store id now rc).1 id' rc' = get_job store id' rc') ∧
  (∀ now rc,
     get_job (mark_running store id now rc).1 id' rc'
     = get_job store id' rc') ∧
  (∀ res now rc,
     get_job (mark_completed store id res now rc).1 id' rc'
     = get_job store id' rc') ∧
  (∀ err now rc,
     get_job (mark_failed store id err now rc).1 id' rc'
     = get_job store id' rc') ∧
  (∀ rc,
     get_job (delete_job store id rc).1 id' rc' = get_job store id' rc') ∧
  (∀ now rc rcs,
     get_job (cancel_job store id now rc rcs).1 id' rc'
     = get_job store id' rc') ∧
  (∀ work t_run t_end rc_run rc_end,
     get_job (run_background_job store id work t_run t_end rc_run rc_end).1
       id' rc'
     = get_job store id' rc').
Proof.
  intros Hwf Hne. split_and!; intros.
  - by apply get_job_save_ne.
  - by apply get_job_update_ne.
  - by apply get_job_update_ne.
  - by apply get_job_update_ne.
  - by apply get_job_delete_ne.
  - unfold cancel_job. destruct (get_job store id rc) as [job|]; [|done].
    destruct (is_terminal (status job)); [done|].
    by apply get_job_update_ne.
  - unfold run_background_job, mark_running, mark_completed, mark_failed.
    destruct work; simpl;
      rewrite ?get_job_update_ne; auto using update_job_wf.
Qed.

(** Cancelling another job next to the completed one. *)
Lemma other_jobs_untouched_witness :
  get_job
    (cancel_job (create_job completed_store "job-2" 250%Z RedisOk).1 "job-2"
       300%Z RedisOk redis_up).1 "job-1" RedisOk
  = Some completed_record.
Proof.
  edestruct (other_jobs_untouched
               (create_job completed_store "job-2" 250%Z RedisOk).1
               "job-2" "job-1" RedisOk) as (_ & _ & _ & _ & _ & H & _).
  - apply store_wf_by_decide. vm_compute. reflexivity.
  - discriminate.
  - rewrite H. vm_compute. reflexivity.
Defined.

(** X5: [delete_job] on a well-formed store. It returns [True] exactly when
    the local map has the id or the Redis call goes through and finds it;
    afterwards the local map has no record of the id, and when there is no
    Redis or the Redis call went through, [get_job] finds nothing. *)
Theorem delete_job_removes store id rc :
  store_wf store →
  ((delete_job store id rc).2 = true ↔
   is_Some (Py.dict_get (_memory_store store) id) ∨
   ∃ db, _redis_client store = Some db ∧ rc = RedisOk ∧
         is_Some (db !! _job_key id)) ∧
  Py.dict_get (_memory_store (delete_job store id rc).1) id = None ∧
  (_redis_client store = None ∨ rc = RedisOk →
   ∀ rc', get_job (delete_job store id rc).1 id rc' = None).
Proof.
  intros [[Hnd _] _]. unfold delete_job. split_and!.
  - destruct (Py.dict_get (_memory_store store) id) as [old|] eqn:Hmem.
    + split; [eauto|]. intros _.
      destruct (_redis_client store) as [db|]; [|done].
      destruct rc; [|done]. by destruct (db !! _job_key id).
    + destruct (_redis_client store) as [db|] eqn:Hc;
        [|split; [done|]; intros [[? [=]]|(? & [=] & _)]].
      destruct rc; [|split; [done|]; intros [[? [=]]|(? & _ & [=] & _)]].
      destruct (db !! _job_key id) as [remote|] eqn:Hk; simpl.
      * split; [|done]. intros _. right. exists db. eauto.
      * split; [done|]. intros [[? [=]]|(db' & [= <-] & _ & [? Hs])].
        congruence.
  - assert (Py.dict_get
              (_memory_store
                 (match Py.dict_get (_memory_store store) id with
                  | Some _ =>
                      ({| _memory_store := Py.dict_del (_memory_store store) id;
                          _redis_client := _redis_client store |}, true)
                  | None => (store, false)
                  end).1) id = None) as Hlocal.
    { destruct (Py.dict_get (_memory_store store) id) eqn:Hmem; [|done].
      simpl. by apply dict_get_del_eq. }
    destruct (_redis_client store) as [db|]; [|done].
    destruct rc; [|done].
    destruct (db !! _job_key id); [|done]. simpl. by apply dict_get_del_eq.
  - intros Hok rc'. unfold get_job.
    destruct (_redis_client store) as [db|] eqn:Hc.
    + destruct Hok as [[=]| ->].
      destruct (db !! _job_key id) as [remote|] eqn:Hk; simpl.
      * rewrite dict_get_del_eq by done. destruct rc'; [|done].
        by rewrite lookup_delete_eq.
      * destruct (Py.dict_get (_memory_store store) id) eqn:Hmem; simpl;
          rewrite ?Hc, ?dict_get_del_eq, ?Hmem by done;
          destruct rc'; by rewrite ?Hk.
    + destruct (Py.dict_get (_memory_store store) id) eqn:Hmem; simpl;
        by rewrite ?Hc, ?dict_get_del_eq, ?Hmem.
Qed.

(** Deleting the completed job of a store without Redis. *)
Lemma delete_job_removes_witness :
  get_job (delete_job completed_store "job-1" RedisOk).1 "job-1" RedisOk
    = None.
Proof.
  edestruct (delete_job_removes completed_store "job-1" RedisOk)
    as (_ & _ & H).
  - apply store_wf_by_decide. vm_compute. reflexivity.
  - apply H. left. reflexivity.
Defined.

(** X6: every operation keeps the store well formed: each entry of the
    local map and of Redis stays under the id of its record, and the local
    map gets no key twice. *)
Theorem operations_keep_store_wf store :
  store_wf store →
  (∀ id now rc, store_wf (create_job store id now rc).1) ∧
  (∀ id st res err now rc,
     store_wf (update_job store id st res err now rc).1) ∧
  (∀ id rc, store_wf (delete_job store id rc).1) ∧
  (∀ id now rc rcs, store_wf (cancel_job store id now rc rcs).1) ∧
  (∀ id work t_run t_end rc_run rc_end,
     store_wf
       (run_background_job store id work t_run t_end rc_run rc_end).1) ∧
  (∀ message id now rc,
     store_wf (Routes.submit_async message store id now rc).1).
Proof.
  intros Hwf. split_and!; intros.
  - by apply save_job_wf.
  - by apply update_job_wf.
  - by apply delete_job_wf.
  - by apply cancel_job_wf.
  - by apply run_background_job_wf.
  - by apply save_job_wf.
Qed.

(** A create under the id in use, in [stale_redis_store]. *)
Lemma operations_keep_store_wf_witness :
  store_wf (create_job stale_redis_store "job-1" 400%Z RedisError).1.
Proof.
  edestruct (operations_keep_store_wf stale_redis_store) as (H & _).
  - apply store_wf_by_decide. vm_compute. reflexivity.
  - apply H.
Defined.

(** ** From submission to the final record *)

Lemma get_after_save_fresh store job rc rc' :
  absent_from_redis store (job_id job) ∨ rc = RedisOk →
  get_job (_save_job store job rc) (job_id job) rc' = Some job.
Proof.
  intros Hok. unfold get_job. rewrite save_job_memory. simpl.
  destruct (_redis_client store) as [db|] eqn:Hc; [|done].
  destruct rc'; [|by destruct rc].
  destruct rc.
  - by rewrite lookup_insert_eq.
  - destruct Hok as [Habs|[=]]. by rewrite (Habs db).
Qed.


(** X7: submitting and polling. For an id that Redis does not have yet, or
    when the Redis write of the submission goes through, each of the four
    submitting handlers answers with the id, the status pending, the
    creation time and its message, and every later poll of the id, whatever
    Redis does then, gives the pending record created at that time with no
    completion time, result or error. *)
Theorem submit_then_poll message store id now rc :
  absent_from_redis store id ∨ rc = RedisOk →
  let submitted := Routes.submit_async message store id now rc in
  Routes.resp_job_id submitted.2 = id ∧
  Routes.resp_status submitted.2 = PENDING ∧
  Routes.resp_created_at submitted.2 = now ∧
  Routes.resp_message submitted.2 = message ∧
  ∀ rc', Routes.get_job_status submitted.1 id rc'
         = Routes.JobFound (fresh_job id now).
Proof.
  intros Hok submitted. subst submitted. split_and!; try done.
  intros rc'. unfold Routes.get_job_status, Routes.submit_async, create_job.
  cbn [fst snd]. fold (fresh_job id now).
  pose proof (get_after_save_fresh store (fresh_job id now) rc rc' Hok) as H.
  cbn [job_id fresh_job] in H. by rewrite H.
Qed.

(** A submission whose Redis write fails, polled while Redis answers. *)
Lemma submit_then_poll_witness :
  Routes.get_job_status
    (Routes.analyze_code_async running_redis_store "job-2" 150%Z RedisError).1
    "job-2" RedisOk
  = Routes.JobFound (fresh_job "job-2" 150%Z).
Proof.
  edestruct (submit_then_poll "Analysis job queued" running_redis_store
               "job-2" 150%Z RedisError) as (_ & _ & _ & _ & H).
  - left. intros db [= <-]. vm_compute. reflexivity.
  - apply H.
Defined.




(** An update of a record that the local map holds, with the record that
    was read. *)
Lemma update_job_local_read store id st res err now rc old :
  store_wf store →
  Py.dict_get (_memory_store store) id = Some old →
  ∃ job,
    get_job store id (on_get rc) = Some job ∧
    (update_job store id st res err now rc).2
      = Some (apply_update job st res err now) ∧
    Py.dict_get (_memory_store (update_job store id st res err now rc).1) id
      = Some (apply_update job st res err now).
Proof.
  intros Hwf Hmem.
  destruct (get_job_local store id (on_get rc) old Hmem) as [job Hget].
  assert (job_id (apply_update job st res err now) = id) as Hid.
  { rewrite apply_update_job_id. by eapply get_job_wf. }
  exists job. rewrite (update_job_found _ _ _ _ _ _ _ _ Hget).
  cbn [fst snd]. split_and!; [done..|].
  rewrite <- Hid. apply save_job_memory.
Qed.

(** X9: a cancellation does not hold against the completion that follows.
    When a job read as pending or running is cancelled and the wrapper's
    [mark_completed] comes afterwards, the update returns, and the local
    map then holds, a record that is completed, with the payload and the new
    completion time; when the cancel's write reached Redis or no Redis is in
    use, that completed record still carries the error of the cancel. *)
Theorem completion_overrides_cancel store id old job now rc_get rc_mark
    payload t_end rc_end :
  store_wf store →
  Py.dict_get (_memory_store store) id = Some old →
  get_job store id rc_get = Some job →
  is_terminal (status job) = false →
  let cancelled := (cancel_job store id now rc_get rc_mark).1 in
  let out := mark_completed cancelled id payload t_end rc_end in
  ∃ final,
    out.2 = Some final ∧
    Py.dict_get (_memory_store out.1) id = Some final ∧
    status final = COMPLETED ∧
    result final = Some payload ∧
    completed_at final = Some t_end ∧
    (_redis_client store = None ∨ on_save rc_mark = RedisOk →
     error final = Some "Job cancelled by user").
Proof.
  intros Hwf Hmem Hget Hterm cancelled out. subst out cancelled.
  unfold cancel_job. rewrite Hget, Hterm. cbn [fst snd]. unfold mark_failed.
  destruct (update_job_local store id (Some FAILED) None
              (Some "Job cancelled by user") now rc_mark old Hwf Hmem)
    as (job0 & _ & Hmem1 & Hget1).
  pose proof (update_job_wf store id (Some FAILED) None
                (Some "Job cancelled by user") now rc_mark Hwf) as Hwf1.
  set (s1 := (update_job store id (Some FAILED) None
                (Some "Job cancelled by user") now rc_mark).1) in *.
  unfold mark_completed.
  destruct (update_job_local_read s1 id (Some COMPLETED) (Some payload) None
              t_end rc_end _ Hwf1 Hmem1) as (job1 & Hread & Hret & Hmem2).
  eexists. split_and!; [exact Hret|exact Hmem2|done..|].
  intros Hok. rewrite (Hget1 Hok) in Hread. by injection Hread as <-.
Qed.

(** The running job cancelled at 200 and completed at 300. *)
Lemma completion_overrides_cancel_witness :
  ∃ final,
    (mark_completed
       (cancel_job running_redis_store "job-1" 200%Z RedisOk redis_up).1
       "job-1" "{}" 300%Z redis_up).2 = Some final ∧
    status final = COMPLETED ∧
    error final = Some "Job cancelled by user".
Proof.
  edestruct (completion_overrides_cancel running_redis_store "job-1"
               stale_running_record stale_running_record 200%Z RedisOk
               redis_up "{}" 300%Z redis_up)
    as (final & Hret & _ & Hst & _ & _ & Herr).
  - apply store_wf_by_decide. vm_compute. reflexivity.
  - vm_compute. reflexivity.
  - vm_compute. reflexivity.
  - reflexivity.
  - exists final. split_and!; [exact Hret|exact Hst|].
    apply Herr. right. reflexivity.
Defined.

(** ** Listing: completeness, small limits and the filter of the route *)

Lemma id_not_listed jobs job :
  job_id job ∉ job_id <$> jobs → id_listed jobs job = false.
Proof.
  intros Hnot. unfold id_listed. apply not_true_is_false.
  intros (j & Hin & Heq)%existsb_exists. apply Hnot.
  apply bool_decide_eq_true_1 in Heq. rewrite <- Heq.
  apply list_elem_of_fmap. exists j. split; [done|].
  by apply list_elem_of_In.
Qed.

(** With room for every record, the pass over the local map adds all the
    records that match the filter. *)
Lemma memory_loop_all want limit values jobs :
  NoDup (job_id <$> (jobs ++ values)) →
  (Z.of_nat (length jobs + length values) ≤ limit)%Z →
  memory_loop want limit values jobs
  = jobs ++ filter (λ job, status_matches want job = true) values.
Proof.
  revert jobs. induction values as [|job rest IH]; intros jobs Hnd Hlen.
  - simpl. by rewrite app_nil_r.
  - simpl in *. destruct (status_matches want job) eqn:Hm.
    + rewrite id_not_listed.
      2:{ rewrite fmap_app, fmap_cons in Hnd.
          apply NoDup_app in Hnd as (_ & Hdisj & _). intros Hin.
          apply (Hdisj _ Hin). apply elem_of_cons. by left. }
      rewrite filter_cons_True by done.
      unfold limit_reached. rewrite length_app. simpl.
      destruct (limit <=? Z.of_nat (length jobs + 1))%Z eqn:Hreach.
      * apply Z.leb_le in Hreach. destruct rest; [done|]. simpl in Hlen. lia.
      * rewrite IH.
        -- by rewrite <- app_assoc.
        -- by rewrite <- app_assoc.
        -- rewrite length_app. simpl. lia.
    + rewrite filter_cons_False by (by rewrite Hm). apply IH.
      * rewrite fmap_app, fmap_cons in Hnd. rewrite fmap_app.
        apply NoDup_app in Hnd as (Hnd1 & Hdisj & Hnd2).
        apply NoDup_cons in Hnd2 as [_ Hnd2].
        apply NoDup_app. split_and!; [done| |done].
        intros x Hx Hin. apply (Hdisj _ Hx). apply elem_of_cons. by right.
      * lia.
Qed.

Lemma memory_wf_ids d : memory_wf d → job_id <$> Py.dict_values d = d.*1.
Proof.
  intros [_ Hall]. unfold Py.dict_values.
  induction Hall as [|[k v] d Hk Hall IH]; [done|]. csimpl.
  simpl in Hk. by rewrite IH, Hk.
Qed.

(** X10: in a store without Redis, a limit that is at least the number of
    stored jobs loses nothing: the list is the stable sort, newest first, of
    the records of the local map that match the filter, so a record is
    listed exactly when it is stored and matches. *)
Theorem list_jobs_local_complete store batches want limit :
  store_wf store →
  _redis_client store = None →
  (Z.of_nat (length (_memory_store store)) ≤ limit)%Z →
  list_jobs store batches want limit
  = sort_created_desc
      (filter (λ job, status_matches want job = true)
         (Py.dict_values (_memory_store store))) ∧
  (∀ job,
     job ∈ list_jobs store batches want limit ↔
     job ∈ Py.dict_values (_memory_store store) ∧
     status_matches want job = true).
Proof.
  intros Hwf Hc Hlen.
  assert (list_jobs store batches want limit
          = sort_created_desc
              (filter (λ job, status_matches want job = true)
                 (Py.dict_values (_memory_store store)))) as Heq.
  { unfold list_jobs, redis_jobs. rewrite Hc.
    rewrite memory_loop_all; simpl.
    - rewrite slice_to_nonneg by lia. apply take_ge.
      rewrite sort_created_desc_Permutation.
      etrans; [apply length_filter|].
      unfold Py.dict_values. rewrite length_fmap. lia.
    - rewrite memory_wf_ids by by destruct Hwf. by destruct Hwf as [[? _] _].
    - unfold Py.dict_values. rewrite length_fmap. lia. }
  split; [done|]. intros job. rewrite Heq.
  rewrite sort_created_desc_Permutation.
  by rewrite list_elem_of_filter, (comm and).
Qed.

(** The completed jobs of [completed_store], with room for ten. *)
Lemma list_jobs_local_complete_witness :
  list_jobs completed_store [] (Some COMPLETED) 10 = [completed_record].
Proof.
  edestruct (list_jobs_local_complete completed_store [] (Some COMPLETED) 10)
    as [-> _].
  - apply store_wf_by_decide. vm_compute. reflexivity.
  - reflexivity.
  - vm_compute. discriminate.
  - vm_compute. reflexivity.
Defined.

Lemma scan_batch_nonpos db want limit keys jobs :
  (limit ≤ 0)%Z →
  (length (scan_batch db want limit keys jobs) ≤ S (length jobs))%nat.
Proof.
  intros Hlimit. induction keys as [|key keys IH]; simpl; [lia|].
  destruct (db !! key) as [job|]; [|done].
  destruct (status_matches want job); [|done].
  unfold limit_reached. rewrite (proj2 (Z.leb_le _ _)) by lia.
  rewrite length_app. simpl. lia.
Qed.

Lemma scan_loop_nonpos db want limit batches jobs :
  (limit ≤ 0)%Z →
  (length (scan_loop db want limit batches jobs) ≤ S (length jobs))%nat.
Proof.
  intros Hlimit. destruct batches as [|keys rest]; simpl; [lia|].
  unfold limit_reached. rewrite (proj2 (Z.leb_le _ _)) by lia.
  by apply scan_batch_nonpos.
Qed.

Lemma memory_loop_nonpos want limit values jobs :
  (limit ≤ 0)%Z →
  (length (memory_loop want limit values jobs) ≤ S (length jobs))%nat.
Proof.
  intros Hlimit. induction values as [|job rest IH]; simpl; [lia|].
  destruct (status_matches want job); [|done].
  destruct (id_listed jobs job); [done|].
  unfold limit_reached. rewrite (proj2 (Z.leb_le _ _)) by lia.
  rewrite length_app. simpl. lia.
Qed.

(** X11: limits that are not positive. Each of the two passes stops after
    its first record, and the final slice drops [-limit] records from the
    end: the list is empty for the limit 0 and for every limit below -1,
    and has at most one record for the limit -1. *)
Theorem list_jobs_nonpositive_limit store batches want limit :
  (limit ≤ 0)%Z →
  (length (list_jobs store batches want limit) ≤ 1)%nat ∧
  (limit ≠ (-1)%Z → list_jobs store batches want limit = []).
Proof.
  intros Hlimit. unfold list_jobs.
  set (jobs1 := memory_loop want limit
                  (Py.dict_values (_memory_store store))
                  (redis_jobs store batches want limit)).
  assert (length (sort_created_desc jobs1) ≤ 2)%nat as Hlen.
  { rewrite sort_created_desc_Permutation. unfold jobs1.
    etrans; [by apply memory_loop_nonpos|].
    apply le_n_S. unfold redis_jobs.
    destruct (_redis_client store) as [db|]; simpl; [|lia].
    by apply (scan_loop_nonpos db want limit batches []). }
  unfold Py.slice_to.
  destruct (0 <=? limit)%Z eqn:Hz.
  - apply Z.leb_le in Hz. assert (limit = 0%Z) as -> by lia.
    change (Z.to_nat 0) with 0%nat. rewrite take_0. split; [simpl; lia|done].
  - apply Z.leb_gt in Hz. split.
    + rewrite length_take. lia.
    + intros Hne. apply length_zero_iff_nil. rewrite length_take. lia.
Qed.

(** The list of [stale_redis_store] for the limit 0. *)
Lemma list_jobs_nonpositive_limit_witness :
  list_jobs stale_redis_store [[_job_key "job-1"]] None 0 = [].
Proof.
  edestruct (list_jobs_nonpositive_limit stale_redis_store
               [[_job_key "job-1"]] None 0) as [_ H].
  - lia.
  - apply H. lia.
Defined.

(** X12: the status filter of the listing handler. A filter that is one of
    the four status values selects that status, and every listed record has
    it, whatever the limit; an absent or empty filter, and any other text
    (the upper-case names included), is dropped without an error and the
    handler lists the jobs of every status. *)
Theorem list_route_status_filter store batches limit :
  (∀ st,
     Routes.list_jobs store batches (Some (JobStatus_value st)) limit
       = list_jobs store batches (Some st) limit ∧
     (store_wf store →
      ∀ job, job ∈ Routes.list_jobs store batches
                     (Some (JobStatus_value st)) limit →
             status job = st)) ∧
  Routes.list_jobs store batches None limit
    = list_jobs store batches None limit ∧
  Routes.list_jobs store batches (Some "") limit
    = list_jobs store batches None limit ∧
  (∀ text,
     text ∉ ["pending"; "running"; "completed"; "failed"] →
     Routes.list_jobs store batches (Some text) limit
       = list_jobs store batches None limit).
Proof.
  split_and!; try done.
  - intros st.
    assert (Routes.list_jobs store batches (Some (JobStatus_value st)) limit
            = list_jobs store batches (Some st) limit) as Heq.
    { unfold Routes.list_jobs, Routes.parse_status_filter.
      rewrite JobStatus_of_value_value. by destruct st. }
    split; [done|]. intros Hwf job. rewrite Heq. unfold list_jobs.
    destruct (redis_jobs_spec store batches (Some st) limit Hwf)
      as (Hrmatch & _ & _).
    destruct (memory_loop_spec (Some st) limit
                (Py.dict_values (_memory_store store))
                (redis_jobs store batches (Some st) limit))
      as (extra & -> & Hextra & _).
    rewrite Forall_forall in Hrmatch, Hextra.
    intros Hin.
    assert (job ∈ sort_created_desc
                    (redis_jobs store batches (Some st) limit ++ extra))
      as Hin'.
    { unfold Py.slice_to in Hin.
      destruct (0 <=? limit)%Z; eapply elem_of_sublist;
        try exact Hin; apply sublist_take. }
    rewrite sort_created_desc_Permutation in Hin'.
    assert (status_matches (Some st) job = true) as Hm.
    { apply elem_of_app in Hin' as [?|?]; [by apply Hrmatch|].
      by apply Hextra. }
    simpl in Hm. by apply bool_decide_eq_true_1 in Hm.
  - intros text Hnot. unfold Routes.list_jobs, Routes.parse_status_filter.
    case_decide; [done|]. unfold JobStatus_of_value.
    rewrite !not_elem_of_cons in Hnot. destruct Hnot as (? & ? & ? & ? & _).
    by rewrite !decide_False.
Qed.

(** The listing for the filter COMPLETED in upper case. *)
Lemma list_route_status_filter_witness :
  Routes.list_jobs stale_redis_store [[_job_key "job-1"]] (Some "COMPLETED")
    50
  = list_jobs stale_redis_store [[_job_key "job-1"]] None 50.
Proof.
  edestruct (list_route_status_filter stale_redis_store
               [[_job_key "job-1"]] 50) as (_ & _ & _ & H).
  apply H. rewrite !not_elem_of_cons. split_and!; try done.
  apply not_elem_of_nil.
Defined.

(** ** The process runner and the scripts of the endpoint *)

(** X13: the result of [_run_process], whatever the subprocess does.
    [success] says that the exit code is 0, and [error] is absent exactly
    when [success] holds; unless the process exited by itself, the exit
    code is -1 and both outputs are empty; [kill] is called exactly when
    the wait timed out, whether the kill then goes through or raises, and
    the error is "Test timed out" only when it goes through; and when the
    executable is missing, the error contains "not found" and nothing is
    done after the failed launch. *)
Theorem run_process_result_invariants cmd cwd timeout proc :
  let out := TestRunner._run_process cmd cwd timeout proc in
  TestRunner.success out.1
    = bool_decide (TestRunner.exit_code out.1 = 0%Z) ∧
  (TestRunner.error out.1 = None ↔ TestRunner.success out.1 = true) ∧
  ((∀ returncode o e, proc ≠ TestRunner.Exits returncode o e) →
   TestRunner.exit_code out.1 = (-1)%Z ∧
   TestRunner.stdout out.1 = "" ∧ TestRunner.stderr out.1 = "") ∧
  (TestRunner.Kill ∈ out.2
   ↔ ∃ kill_error, proc = TestRunner.TimesOut kill_error) ∧
  (∀ kill_error, proc = TestRunner.TimesOut kill_error →
     TestRunner.error out.1 = Some (default "Test timed out" kill_error)) ∧
  (proc = TestRunner.FileNotFound →
   ∃ text, TestRunner.error out.1 = Some text ∧
           Py.contains "not found" text = true ∧
           out.2 = [TestRunner.CreateSubprocess cmd cwd]) ∧
  head out.2 = Some (TestRunner.CreateSubprocess cmd cwd).
Proof.
  destruct proc as [returncode o e|[message|]| |launched text]; simpl.
  - split_and!; try done.
    + by case_bool_decide.
    + intros H. by destruct (H returncode o e).
    + split; [|by intros [? ?]].
      rewrite !elem_of_cons. intros [?|[?|?%elem_of_nil]]; done.
  - split_and!; try done.
    + split; [by eexists|]. intros _. rewrite !elem_of_cons. auto.
    + by intros ? [= <-].
  - split_and!; try done.
    + split; [by eexists|]. intros _. rewrite !elem_of_cons. auto.
    + by intros ? [= <-].
  - split_and!; try done.
    + split; [|by intros [? ?]]. by intros ?%list_elem_of_singleton.
    + intros _. eexists. by split_and!.
  - split_and!; try done. split; [|by intros [? ?]].
    rewrite elem_of_cons. intros [?|Hin]; [done|].
    destruct launched; [by apply list_elem_of_singleton in Hin|].
    by apply elem_of_nil in Hin.
Qed.

(** The launch of a missing executable. *)
Lemma run_process_result_invariants_witness :
  ∃ text,
    TestRunner.error
      (TestRunner._run_process ["npx"; "cypress"; "run"] "/tmp/x" 90
         TestRunner.FileNotFound).1 = Some text ∧
    Py.contains "not found" text = true.
Proof.
  edestruct (run_process_result_invariants ["npx"; "cypress"; "run"] "/tmp/x"
               90 TestRunner.FileNotFound)
    as (_ & _ & _ & _ & _ & (text & Herr & Hin & _) & _); [reflexivity|].
  by exists text.
Defined.

Lemma eq_str_true text :
  TestRunner.eq_str (TestRunner.PyStr text) text = true.
Proof. unfold TestRunner.eq_str. by rewrite bool_decide_eq_true_2. Qed.

Lemma eq_str_false v text :
  v ≠ TestRunner.PyStr text → TestRunner.eq_str v text = false.
Proof. intros. unfold TestRunner.eq_str. by rewrite bool_decide_eq_false_2. Qed.

Lemma emitted_count step base_url flavor :
  length (TestRunner.emitted step base_url flavor)
  = if step_has_statement step then 1 else 0.
Proof.
  unfold step_has_statement, TestRunner.emitted, TestRunner.cypress_step,
    TestRunner.playwright_step, TestRunner.get.
  destruct (step !! "type") as [[|text|z]|]; cbn [default from_option id];
    try (destruct flavor; rewrite !eq_str_false by discriminate; done).
  unfold TestRunnerRouter.step_types.
  destruct (decide (text = "navigate")) as [->|?];
    [by destruct flavor; rewrite eq_str_true|].
  destruct (decide (text = "click")) as [->|?];
    [by destruct flavor; rewrite eq_str_true|].
  destruct (decide (text = "type")) as [->|?];
    [by destruct flavor; rewrite eq_str_true|].
  destruct (decide (text = "verify")) as [->|?];
    [by destruct flavor; rewrite eq_str_true|].
  destruct (decide (text = "wait")) as [->|?];
    [by destruct flavor; rewrite eq_str_true|].
  rewrite bool_decide_eq_false_2.
  - destruct flavor; rewrite !eq_str_false by congruence; done.
  - rewrite !elem_of_cons. intros [?|[?|[?|[?|[?|?%elem_of_nil]]]]]; done.
Qed.

(** X14: the shape of a synthesized script. A step gives one statement when
    its [type] is navigate, click, type, verify or wait and none otherwise,
    in both flavors; the lines of the script are the opening lines, the
    statements of the steps in the order of the steps, and the closing
    lines, so that the script of two lists of steps put together has the
    statements of the first list before those of the second. *)
Theorem script_shape steps base_url :
  (∀ step flavor,
     length (TestRunner.emitted step base_url flavor)
     = if step_has_statement step then 1 else 0) ∧
  TestRunner.cypress_lines steps base_url
    = ["describe('Test', () => {"; "  it('runs the test steps', () => {"]
      ++ (steps ≫= λ step, TestRunner.cypress_step step base_url)
      ++ ["  });"; "});"] ∧
  TestRunner.playwright_lines steps base_url
    = ["const { test, expect } = require('@playwright/test');"; "";
       "test('runs the test steps', async ({ page }) => {"]
      ++ (steps ≫= λ step, TestRunner.playwright_step step base_url)
      ++ ["});"] ∧
  length (TestRunner.cypress_lines steps base_url)
    = 4 + length (filter (λ step, step_has_statement step = true) steps) ∧
  length (TestRunner.playwright_lines steps base_url)
    = 4 + length (filter (λ step, step_has_statement step = true) steps) ∧
  (∀ more flavor,
     (steps ++ more) ≫= (λ step, TestRunner.emitted step base_url flavor)
     = (steps ≫= λ step, TestRunner.emitted step base_url flavor)
       ++ (more ≫= λ step, TestRunner.emitted step base_url flavor)).
Proof.
  assert (∀ flavor,
            length (steps ≫= λ step, TestRunner.emitted step base_url flavor)
            = length (filter (λ step, step_has_statement step = true) steps))
    as Hcount.
  { intros flavor. induction steps as [|step steps IH]; [done|].
    rewrite bind_cons, length_app, IH, emitted_count, filter_cons.
    destruct (step_has_statement step); by case_decide. }
  split_and!.
  - intros. apply emitted_count.
  - unfold TestRunner.cypress_lines.
    by rewrite foldl_append_lines, <- app_assoc.
  - unfold TestRunner.playwright_lines.
    by rewrite foldl_append_lines, <- app_assoc.
  - pose proof (Hcount TestRunner.CYPRESS) as H.
    cbn [TestRunner.emitted] in H. unfold TestRunner.cypress_lines.
    rewrite foldl_append_lines, !length_app, H. simpl. lia.
  - pose proof (Hcount TestRunner.PLAYWRIGHT) as H.
    cbn [TestRunner.emitted] in H. unfold TestRunner.playwright_lines.
    rewrite foldl_append_lines, !length_app, H. simpl. lia.
  - intros. apply bind_app.
Qed.

Lemma model_dump_lookup step :
  TestRunnerRouter.model_dump step !! "type"
    = Some (TestRunner.PyStr (TestRunnerRouter.step_type step)) ∧
  TestRunnerRouter.model_dump step !! "selector"
    = Some (TestRunnerRouter.dump_str (TestRunnerRouter.selector step)) ∧
  TestRunnerRouter.model_dump step !! "value"
    = Some (TestRunnerRouter.dump_str (TestRunnerRouter.value step)) ∧
  TestRunnerRouter.model_dump step !! "url"
    = Some (TestRunnerRouter.dump_str (TestRunnerRouter.url step)) ∧
  TestRunnerRouter.model_dump step !! "duration"
    = Some (TestRunnerRouter.dump_int (TestRunnerRouter.duration step)).
Proof. unfold TestRunnerRouter.model_dump. split_and!; by simplify_map_eq. Qed.

(** X15: the steps of the [run-steps] endpoint never use the fall-back
    values of the synthesizers. A dumped step has all five keys, so the
    statements of a request, and with them the whole script, are the same
    for every base URL; a navigation without URL opens the page 'None', not
    the base URL, and a wait without duration waits for None, not for 1000
    milliseconds. *)
Theorem endpoint_steps_ignore_defaults steps base1 base2 flavor :
  (∀ step,
     TestRunner.emitted (TestRunnerRouter.model_dump step) base1 flavor
     = TestRunner.emitted (TestRunnerRouter.model_dump step) base2 flavor) ∧
  TestRunnerRouter.steps_spec flavor steps base1
    = TestRunnerRouter.steps_spec flavor steps base2 ∧
  (∀ step,
     TestRunnerRouter.step_type step = "navigate" →
     TestRunnerRouter.url step = None →
     TestRunner.cypress_step (TestRunnerRouter.model_dump step) base1
       = ["    cy.visit('None');"] ∧
     TestRunner.playwright_step (TestRunnerRouter.model_dump step) base1
       = ["  await page.goto('None');"]) ∧
  (∀ step,
     TestRunnerRouter.step_type step = "wait" →
     TestRunnerRouter.duration step = None →
     TestRunner.cypress_step (TestRunnerRouter.model_dump step) base1
       = ["    cy.wait(None);"] ∧
     TestRunner.playwright_step (TestRunnerRouter.model_dump step) base1
       = ["  await page.waitForTimeout(None);"]).
Proof.
  assert (∀ step base,
            TestRunner.cypress_step (TestRunnerRouter.model_dump step) base
            = TestRunner.cypress_step (TestRunnerRouter.model_dump step) ""
            ∧
            TestRunner.playwright_step (TestRunnerRouter.model_dump step) base
            = TestRunner.playwright_step (TestRunnerRouter.model_dump step) "")
    as Hbase.
  { intros step base.
    destruct (model_dump_lookup step) as (Ht & Hs & Hv & Hu & Hd).
    unfold TestRunner.cypress_step, TestRunner.playwright_step,
      TestRunner.get. by rewrite Ht, Hs, Hv, Hu, Hd. }
  assert (∀ step,
            TestRunner.emitted (TestRunnerRouter.model_dump step) base1 flavor
            = TestRunner.emitted (TestRunnerRouter.model_dump step) base2
                flavor) as Hstep.
  { intros step. destruct (Hbase step base1) as [Hc1 Hp1].
    destruct (Hbase step base2) as [Hc2 Hp2].
    destruct flavor; simpl; congruence. }
  split_and!; [done| | |].
  - unfold TestRunnerRouter.steps_spec, TestRunner.synthesize,
      TestRunner._steps_to_cypress, TestRunner._steps_to_playwright,
      TestRunner.cypress_lines, TestRunner.playwright_lines.
    rewrite !foldl_append_lines.
    assert (∀ base (per_step : TestRunner.Step → string → list string),
              (∀ step, per_step (TestRunnerRouter.model_dump step) base
                       = per_step (TestRunnerRouter.model_dump step) "") →
              (TestRunnerRouter.model_dump <$> steps)
                ≫= (λ step, per_step step base)
              = (TestRunnerRouter.model_dump <$> steps)
                  ≫= (λ step : TestRunner.Step, per_step step ""))
      as Hbind.
    { intros base per_step Hper. induction steps as [|step steps IH]; [done|].
      rewrite fmap_cons, !bind_cons, IH. by rewrite Hper. }
    destruct flavor.
    + rewrite (Hbind base1 TestRunner.cypress_step),
        (Hbind base2 TestRunner.cypress_step); [done|..];
        intros; apply Hbase.
    + rewrite (Hbind base1 TestRunner.playwright_step),
        (Hbind base2 TestRunner.playwright_step); [done|..];
        intros; apply Hbase.
  - intros step Htype Hurl.
    destruct (model_dump_lookup step) as (Ht & Hs & Hv & Hu & Hd).
    unfold TestRunner.cypress_step, TestRunner.playwright_step,
      TestRunner.get. by rewrite Ht, Hu, Htype, Hurl.
  - intros step Htype Hdur.
    destruct (model_dump_lookup step) as (Ht & Hs & Hv & Hu & Hd).
    unfold TestRunner.cypress_step, TestRunner.playwright_step,
      TestRunner.get. by rewrite Ht, Hd, Htype, Hdur.
Qed.

(** The navigation step without URL, for the base URL https://base. *)
Lemma endpoint_steps_ignore_defaults_witness :
  TestRunner.cypress_step (TestRunnerRouter.model_dump navigate_without_url)
    "https://base" = ["    cy.visit('None');"].
Proof.
  edestruct (endpoint_steps_ignore_defaults [] "https://base" "" 
               TestRunner.CYPRESS) as (_ & _ & H & _).
  destruct (H navigate_without_url) as [Hc _]; [reflexivity..|exact Hc].
Defined.

(** X16: the browser that the endpoints hand to the runner is always one
    the flavor accepts: a browser of the flavor's list is kept, any other
    is replaced by chrome for Cypress and by chromium for Playwright, so the
    request's default chrome runs Playwright on chromium; the browser after
    [--browser] in the Cypress command is one of chrome, firefox and
    electron. *)
Theorem runner_browser_allowed framework browser headless spec_file :
  TestRunnerRouter.runner_browser framework browser
    ∈ allowed_browsers framework ∧
  (browser ∈ allowed_browsers framework →
   TestRunnerRouter.runner_browser framework browser = browser) ∧
  (browser ∉ allowed_browsers framework →
   TestRunnerRouter.runner_browser framework browser
   = match framework with
     | TestRunner.CYPRESS => "chrome"
     | TestRunner.PLAYWRIGHT => "chromium"
     end) ∧
  TestRunnerRouter.runner_browser TestRunner.PLAYWRIGHT "chrome" = "chromium" ∧
  (∃ chosen,
     TestRunnerRouter.cypress_cmd
       (TestRunnerRouter.runner_browser TestRunner.CYPRESS browser)
       spec_file headless !! 4%nat = Some chosen ∧
     chosen ∈ TestRunnerRouter.cypress_browsers).
Proof.
  assert (TestRunnerRouter.runner_browser TestRunner.CYPRESS browser
            ∈ TestRunnerRouter.cypress_browsers) as Hcy.
  { unfold TestRunnerRouter.runner_browser. case_decide; [done|].
    apply elem_of_cons. by left. }
  split_and!.
  - destruct framework; [done|]. unfold TestRunnerRouter.runner_browser.
    simpl. case_decide; [done|]. apply elem_of_cons. by left.
  - intros Hin. unfold TestRunnerRouter.runner_browser.
    destruct framework; simpl in Hin; by rewrite decide_True.
  - intros Hnot. unfold TestRunnerRouter.runner_browser.
    destruct framework; simpl in Hnot; by rewrite decide_False.
  - by vm_compute.
  - eexists. split; [reflexivity|done].
Qed.

(** A browser name that no flavor knows. *)
Lemma runner_browser_allowed_witness :
  TestRunnerRouter.runner_browser TestRunner.CYPRESS "safari" = "chrome".
Proof.
  edestruct (runner_browser_allowed TestRunner.CYPRESS "safari" true "t.js")
    as (_ & _ & H & _).
  apply H. simpl. unfold TestRunnerRouter.cypress_browsers.
  rewrite !not_elem_of_cons. split_and!; try done. apply not_elem_of_nil.
Defined.

(** X17: the deadline of the subprocess, in seconds, for a test timeout in
    milliseconds: it lies more than 29 and at most 30 seconds after the
    test timeout, for every integer timeout. *)
Theorem process_timeout_bounds timeout :
  (timeout + 29000 < 1000 * TestRunnerRouter.process_timeout timeout)%Z ∧
  (1000 * TestRunnerRouter.process_timeout timeout ≤ timeout + 30000)%Z.
Proof.
  unfold TestRunnerRouter.process_timeout.
  pose proof (Z.mod_pos_bound timeout 1000 ltac:(lia)).
  pose proof (Z.div_mod timeout 1000 ltac:(lia)). lia.
Qed.

(** ** The code generator of the scenario builder *)

Lemma scenario_test_lines per_step steps :
  ScenarioBuilder.test_lines per_step steps = steps ≫= per_step.
Proof. unfold ScenarioBuilder.test_lines. by rewrite foldl_append_lines. Qed.

Lemma scenario_step_count step :
  length (ScenarioBuilder.cypress_step step)
    = (if ScenarioBuilder.has_statement step then 1 else 0) ∧
  length (ScenarioBuilder.playwright_step step)
    = (if ScenarioBuilder.has_statement step then 1 else 0).
Proof.
  unfold ScenarioBuilder.cypress_step, ScenarioBuilder.playwright_step,
    ScenarioBuilder.has_statement.
  destruct (decide (ScenarioBuilder.action step = "navigate")) as [->|?];
    [done|].
  destruct (decide (ScenarioBuilder.action step = "click")) as [->|?];
    [done|].
  destruct (decide (ScenarioBuilder.action step = "type")) as [->|?];
    [done|].
  destruct (decide (ScenarioBuilder.action step = "select")) as [->|?];
    [done|].
  destruct (decide (ScenarioBuilder.action step = "assert")) as [->|?].
  - destruct (decide (ScenarioBuilder.type step = "visible")) as [->|?];
      [done|].
    destruct (decide (ScenarioBuilder.type step = "contains")) as [->|?];
      [done|].
    destruct (decide (ScenarioBuilder.type step = "url")) as [->|?];
      [done|].
    rewrite (bool_decide_eq_false_2 (_ ∈ ["visible"; _; _])); [done|].
    rewrite !elem_of_cons. intros [?|[?|[?|?%elem_of_nil]]]; done.
  - rewrite (bool_decide_eq_false_2 (_ = "assert")) by done.
    destruct (decide (ScenarioBuilder.action step = "wait")) as [->|?];
      [done|].
    rewrite bool_decide_eq_false_2; [done|].
    rewrite !elem_of_cons. intros [?|[?|[?|[?|[?|?%elem_of_nil]]]]]; done.
Qed.

(** X18: the statements of [_generate_cypress_code] and
    [_generate_playwright_code]. A step gives one statement when its action
    is navigate, click, type, select or wait, or when it is an assert of
    type visible, contains or url, and none otherwise (hover, an assert of
    another type, an unknown action), alike in both frameworks. A select
    step chooses the value on the selector, and a wait without timeout, or
    with the timeout 0, waits for 5000. *)
Theorem scenario_step_statements step :
  length (ScenarioBuilder.cypress_step step)
    = (if ScenarioBuilder.has_statement step then 1 else 0) ∧
  length (ScenarioBuilder.playwright_step step)
    = (if ScenarioBuilder.has_statement step then 1 else 0) ∧
  (ScenarioBuilder.action step = "select" →
   ScenarioBuilder.cypress_step step
     = ["    cy.get('" +:+ ScenarioBuilder.fmt (ScenarioBuilder.selector step)
        +:+ "').select('"
        +:+ ScenarioBuilder.fmt (ScenarioBuilder.value step) +:+ "');"] ∧
   ScenarioBuilder.playwright_step step
     = ["    await page.selectOption('"
        +:+ ScenarioBuilder.fmt (ScenarioBuilder.selector step) +:+ "', '"
        +:+ ScenarioBuilder.fmt (ScenarioBuilder.value step) +:+ "');"]) ∧
  (ScenarioBuilder.action step = "wait" →
   ScenarioBuilder.timeout step = None ∨
   ScenarioBuilder.timeout step = Some 0%Z →
   ScenarioBuilder.cypress_step step = ["    cy.wait(5000);"] ∧
   ScenarioBuilder.playwright_step step
     = ["    await page.waitForTimeout(5000);"]).
Proof.
  destruct (scenario_step_count step) as [Hcy Hpw].
  split_and!; [done|done| |].
  - intros Hact. unfold ScenarioBuilder.cypress_step,
      ScenarioBuilder.playwright_step. by rewrite Hact.
  - intros Hact Hto. unfold ScenarioBuilder.cypress_step,
      ScenarioBuilder.playwright_step, ScenarioBuilder.wait_timeout.
    rewrite Hact. by destruct Hto as [-> | ->].
Qed.

(** A wait step with the timeout 0. *)
Lemma scenario_step_statements_witness :
  ScenarioBuilder.cypress_step
    {| ScenarioBuilder.id := "step-1"; ScenarioBuilder.type := "action";
       ScenarioBuilder.action := "wait"; ScenarioBuilder.target := None;
       ScenarioBuilder.selector := None; ScenarioBuilder.value := None;
       ScenarioBuilder.timeout := Some 0%Z |}
  = ["    cy.wait(5000);"].
Proof.
  edestruct (scenario_step_statements
     {| ScenarioBuilder.id := "step-1"; ScenarioBuilder.type := "action";
        ScenarioBuilder.action := "wait"; ScenarioBuilder.target := None;
        ScenarioBuilder.selector := None; ScenarioBuilder.value := None;
        ScenarioBuilder.timeout := Some 0%Z |}) as (_ & _ & _ & H).
  destruct H as [Hc _]; [reflexivity|by right|exact Hc].
Defined.

(** X19: generated code without statements. When no step has a statement,
    the Cypress and the Playwright code are those of an empty scenario,
    whose test body is the comment "// Add test steps"; and for every
    framework an empty base URL gives the same code as no base URL. *)
Theorem scenario_without_statements steps base_url :
  (∀ step, step ∈ steps → ScenarioBuilder.has_statement step = false) →
  ScenarioBuilder.test_body
    (ScenarioBuilder.test_lines ScenarioBuilder.cypress_step steps)
    = "    // Add test steps" ∧
  ScenarioBuilder.test_body
    (ScenarioBuilder.test_lines ScenarioBuilder.playwright_step steps)
    = "    // Add test steps" ∧
  (∀ framework,
     ScenarioBuilder._generate_code steps framework base_url
     = match framework with
       | ScenarioBuilder.CYPRESS | ScenarioBuilder.PLAYWRIGHT =>
           ScenarioBuilder._generate_code [] framework base_url
       | _ => ScenarioBuilder._generate_generic_code steps framework
       end) ∧
  (∀ framework,
     ScenarioBuilder._generate_code steps framework (Some "")
     = ScenarioBuilder._generate_code steps framework None).
Proof.
  intros Hnone.
  assert (ScenarioBuilder.test_lines ScenarioBuilder.cypress_step steps = []
          ∧ ScenarioBuilder.test_lines ScenarioBuilder.playwright_step steps
            = []) as [Hcy Hpw].
  { rewrite !scenario_test_lines.
    induction steps as [|step steps IH]; [done|]. rewrite !bind_cons.
    destruct IH as [-> ->].
    { intros s Hs. apply Hnone. apply elem_of_cons. by right. }
    destruct (scenario_step_count step) as [Hc Hp].
    rewrite Hnone in Hc, Hp by (apply elem_of_cons; by left).
    apply length_zero_iff_nil in Hc, Hp. by rewrite Hc, Hp. }
  split_and!.
  - by rewrite Hcy.
  - by rewrite Hpw.
  - intros []; try done; unfold ScenarioBuilder._generate_code,
      ScenarioBuilder._generate_cypress_code,
      ScenarioBuilder._generate_playwright_code; by rewrite ?Hcy, ?Hpw.
  - by intros [].
Qed.

(** A scenario whose only step hovers. *)
Lemma scenario_without_statements_witness :
  ScenarioBuilder._generate_code
    [{| ScenarioBuilder.id := "step-1"; ScenarioBuilder.type := "action";
        ScenarioBuilder.action := "hover"; ScenarioBuilder.target := None;
        ScenarioBuilder.selector := Some "#menu";
        ScenarioBuilder.value := None; ScenarioBuilder.timeout := None |}]
    ScenarioBuilder.CYPRESS None
  = ScenarioBuilder._generate_code [] ScenarioBuilder.CYPRESS None.
Proof.
  edestruct (scenario_without_statements
     [{| ScenarioBuilder.id := "step-1"; ScenarioBuilder.type := "action";
         ScenarioBuilder.action := "hover"; ScenarioBuilder.target := None;
         ScenarioBuilder.selector := Some "#menu";
         ScenarioBuilder.value := None; ScenarioBuilder.timeout := None |}]
     None) as (_ & _ & H & _).
  - intros step ->%list_elem_of_singleton. reflexivity.
  - apply (H ScenarioBuilder.CYPRESS).
Defined.

(** ** The status of a queued task, once more *)

Lemma lower_ascii_idemp c :
  Py.lower_ascii (Py.lower_ascii c) = Py.lower_ascii c.
Proof. by destruct c as [[] [] [] [] [] [] [] []]. Qed.

Lemma lower_idemp s : Py.lower (Py.lower s) = Py.lower s.
Proof.
  induction s as [|c s IH]; [done|]. simpl. by rewrite lower_ascii_idemp, IH.
Qed.

Lemma lower_ascii_below c :
  (Ascii.nat_of_ascii c <? 128)%nat = true →
  (Ascii.nat_of_ascii (Py.lower_ascii c) <? 128)%nat = true.
Proof. by destruct c as [[] [] [] [] [] [] [] []]. Qed.

Lemma lower_is_ascii s : Py.is_ascii s = true → Py.is_ascii (Py.lower s) = true.
Proof.
  induction s as [|c s IH]; [done|]. simpl.
  intros [Hc Hs]%andb_true_iff. by rewrite lower_ascii_below, IH.
Qed.

(** X20: when the native state of the task is ASCII text, as Celery's
    states are, the status that [get_task_status] reports is ASCII text in
    lower case: lowering it changes nothing, for the five mapped native
    states and for every other one alike. *)
Theorem task_status_lower_case tid res :
  Py.is_ascii (CeleryApp.ar_status res) = true →
  Py.is_ascii (CeleryApp.status (CeleryApp.get_task_status tid res)) = true ∧
  Py.lower (CeleryApp.status (CeleryApp.get_task_status tid res))
  = CeleryApp.status (CeleryApp.get_task_status tid res).
Proof.
  intros Hascii. unfold CeleryApp.get_task_status. simpl.
  destruct (CeleryApp.status_map !! CeleryApp.ar_status res) as [v|] eqn:Hv;
    simpl; [|split; [by apply lower_is_ascii|apply lower_idemp]].
  unfold CeleryApp.status_map in Hv.
  repeat (apply lookup_insert_Some in Hv as [[_ <-]|[_ Hv]]; [done|]).
  by rewrite lookup_empty in Hv.
Qed.

(** A task that Celery reports as being retried. *)
Lemma task_status_lower_case_witness :
  Py.lower
    (CeleryApp.status
       (CeleryApp.get_task_status "t-1"
          (CeleryApp.mkAsyncResult "RETRY" None false false)))
  = CeleryApp.status
      (CeleryApp.get_task_status "t-1"
         (CeleryApp.mkAsyncResult "RETRY" None false false)).
Proof.
  apply (task_status_lower_case "t-1"
           (CeleryApp.mkAsyncResult "RETRY" None false false)).
  reflexivity.
Defined.
